(** * Finite transition systems of [tulip/transys/transys.py]

    A shallow embedding of the closed finite transition system class, of its
    merge and product operators and of the builders [negation_closure],
    [tuple2fts], [line_labeled_with] and [cycle_labeled_with], followed by
    the properties the specification states about them and by further
    properties of the code.

    Python objects live in a store: an instance holds its name and a
    reference to its containers, so that [copy.copy] yields a new instance
    over the same containers.  Exceptions are results; the store reached
    when an exception is raised is kept. *)

From stdpp Require Import gmap strings list fin_maps pretty.
From Stdlib Require Import ZArith Ascii.

Local Open Scope Z_scope.
Local Open Scope string_scope.

(** ** Values *)

(** The hashable Python values that occur as state identifiers, actions and
    atomic propositions: integers, strings, the constant [True] and pairs
    (the elements of a Cartesian product).  Python identifies [True] with
    [1] as a set element; the embedding keeps them apart, and no function
    below builds a container holding both unless its caller passes one. *)
Inductive pyval :=
| VInt (z : Z)
| VStr (s : string)
| VTrue
| VTuple (a b : pyval).

Global Instance pyval_eq_dec : EqDecision pyval.
Proof. solve_decision. Defined.

Fixpoint pyval_to_tree (v : pyval) : gen_tree (Z + string) :=
  match v with
  | VInt z => GenLeaf (inl z)
  | VStr s => GenLeaf (inr s)
  | VTrue => GenNode 0 []
  | VTuple a b => GenNode 1 [pyval_to_tree a; pyval_to_tree b]
  end.

Fixpoint tree_to_pyval (t : gen_tree (Z + string)) : option pyval :=
  match t with
  | GenLeaf (inl z) => Some (VInt z)
  | GenLeaf (inr s) => Some (VStr s)
  | GenNode 0 [] => Some VTrue
  | GenNode 1 [a; b] =>
      match tree_to_pyval a, tree_to_pyval b with
      | Some x, Some y => Some (VTuple x y)
      | _, _ => None
      end
  | _ => None
  end.

Global Instance pyval_countable : Countable pyval.
Proof.
  refine (inj_countable pyval_to_tree tree_to_pyval _).
  intros v. induction v as [| | |a IHa b IHb]; simpl; [done..|].
  by rewrite IHa, IHb.
Defined.

(** [repr] of the values inside a tuple; quotes inside a string are not
    escaped. *)
Fixpoint repr (v : pyval) : string :=
  match v with
  | VInt z => pretty z
  | VStr s => "'" +:+ s +:+ "'"
  | VTrue => "True"
  | VTuple a b => "(" +:+ repr a +:+ ", " +:+ repr b +:+ ")"
  end.

(** Python's [str]. *)
Definition str (v : pyval) : string :=
  match v with
  | VStr s => s
  | _ => repr v
  end.

(** ** Exceptions and the state-and-exception monad *)

(** The exception classes the module raises, and the error kinds the
    specification gives to the graph layer ([DomainError],
    [UnknownStateError]; [DuplicateStateError] cannot arise from the calls
    made here). *)
Inductive exn :=
| TypeError
| NotImplementedError
| Exception
| IndexError
| AttributeError
| ValueError
| DomainError
| UnknownStateError.

Global Instance exn_eq_dec : EqDecision exn.
Proof. solve_decision. Defined.

Inductive result (A : Type) :=
| Ok (a : A)
| Raise (e : exn).
Arguments Ok {A} a.
Arguments Raise {A} e.

(** A computation over a state [St]: it returns or raises, and in both
    cases leaves a state behind. *)
Definition M (St A : Type) : Type := St → result A * St.

Definition ret {St A} (a : A) : M St A := fun s => (Ok a, s).
Definition raise {St A} (e : exn) : M St A := fun s => (Raise e, s).
Definition bind {St A B} (m : M St A) (k : A → M St B) : M St B :=
  fun s => match m s with
           | (Ok a, s') => k a s'
           | (Raise e, s') => (Raise e, s')
           end.
Definition get {St} : M St St := fun s => (Ok s, s).
Definition modify {St} (f : St → St) : M St unit := fun s => (Ok tt, f s).

Notation "'let*' x ':=' m 'in' k" := (bind m (fun x => k))
  (at level 10, x pattern, m at level 100, k at level 200).
Notation "m ';;' k" := (bind m (fun _ => k))
  (at level 100, k at level 200, right associativity).

(** [for x in l: body x] *)
Fixpoint for_each {St A} (l : list A) (body : A → M St unit) : M St unit :=
  match l with
  | [] => ret tt
  | x :: l' => body x ;; for_each l' body
  end.

(** ** The containers of a transition system *)

(** The label dict of a state: [None] is the empty dict of an unlabeled
    state, [Some l] is the dict whose one entry ['ap'] is [l]. *)
Abbreviation label_dict := (option (gset pyval)).

(** An edge with its label dict: [None] for an unlabeled edge, [Some a]
    for the dict whose one entry ['actions'] is [a]. *)
Abbreviation edge := (pyval * pyval * option pyval)%type.

(** The containers an instance refers to: the two label universes
    ([MathSet]s), the node dict with the state labels, the initial states,
    the edges in insertion order, and the [mutants] flag of the states. *)
Record graph := Graph {
  atomic_propositions : gset pyval;
  actions : gset pyval;
  nodes : gmap pyval label_dict;
  initial : gset pyval;
  edges : list edge;
  mutants : bool
}.

Definition empty_graph (mutable : bool) : graph :=
  Graph ∅ ∅ ∅ ∅ [] mutable.

Definition set_atomic_propositions (f : gset pyval → gset pyval) (g : graph) :=
  Graph (f (atomic_propositions g)) (actions g) (nodes g) (initial g)
        (edges g) (mutants g).
Definition set_actions (f : gset pyval → gset pyval) (g : graph) :=
  Graph (atomic_propositions g) (f (actions g)) (nodes g) (initial g)
        (edges g) (mutants g).
Definition set_nodes (f : gmap pyval label_dict → gmap pyval label_dict)
    (g : graph) :=
  Graph (atomic_propositions g) (actions g) (f (nodes g)) (initial g)
        (edges g) (mutants g).
Definition set_initial (f : gset pyval → gset pyval) (g : graph) :=
  Graph (atomic_propositions g) (actions g) (nodes g) (f (initial g))
        (edges g) (mutants g).
Definition set_edges (f : list edge → list edge) (g : graph) :=
  Graph (atomic_propositions g) (actions g) (nodes g) (initial g)
        (f (edges g)) (mutants g).

(** ** The label set algebra and the graph layer

    [mathset.py] and [labeled_graphs.py] are not part of the sources at
    hand; their operations are modelled from the specification. *)

(** Modelled from the spec: [MathSet.__or__], the union of two finite sets
    (section 4.1, "set union; commutative, idempotent, duplicate-free"). *)
Definition MathSet_or (a b : gset pyval) : gset pyval := a ∪ b.

(** Modelled from the spec: [MathSet.__mul__], the Cartesian product
    (section 4.1, "all (x, y) with x in a, y in b"), built as the source of
    the product does: the list of the pairs, then a set of it. *)
Definition cartesian (a b : list pyval) : list pyval :=
  x ← a; y ← b; [VTuple x y].
Definition MathSet_mul (a b : gset pyval) : gset pyval :=
  list_to_set (cartesian (elements a) (elements b)).

(** Modelled from the spec: [MathSet.__ior__], the in-place union with the
    elements of an iterable, given as their set (section 4.2, "monotonic
    universe growth"). *)
Definition MathSet_ior (a b : gset pyval) : gset pyval := a ∪ b.

(** Modelled from the spec: [unique] of [mathset.py] (section 4.5,
    "duplicate-eliminated, order-preserving-first-seen"). *)
Fixpoint unique_from (seen l : list pyval) : list pyval :=
  match l with
  | [] => []
  | x :: l' =>
      if bool_decide (x ∈ seen) then unique_from seen l'
      else x :: unique_from (x :: seen) l'
  end.
Definition unique (l : list pyval) : list pyval := unique_from [] l.

(** Modelled from the spec: [prepend_with] of [labeled_graphs.py]
    (section 4.5, "an optional prefix string is prepended to every state
    identifier ... a purely textual transform"); without a prefix the
    states are returned as they are. *)
Definition prepend_with (states : list pyval) (prepend_str : option string)
    : list pyval :=
  match prepend_str with
  | None => states
  | Some p => (fun s => VStr (p +:+ str s)) <$> states
  end.

Section graph_layer.
Implicit Types (s : pyval) (g : graph).

(** Modelled from the spec: [state in self.states]. *)
Definition states_contains s : M graph bool :=
  fun g => (Ok (bool_decide (s ∈ dom (nodes g))), g).

(** Modelled from the spec: [states.add] (section 4.2, [add_state]); a
    state is added without a label, and adding it again changes
    nothing. *)
Definition states_add s : M graph unit :=
  modify (set_nodes (fun n =>
    match n !! s with Some _ => n | None => <[s := None]> n end)).

Definition states_add_from (l : list pyval) : M graph unit :=
  for_each l states_add.

(** Modelled from the spec: [states.label] (section 4.2, [label_state]:
    "overwrites the state's label; validates subset-of-AP invariant");
    a state that does not exist is an [UnknownStateError], a label
    outside the power set of the propositions a [DomainError]. *)
Definition states_label s (l : gset pyval) : M graph unit :=
  let* g := get in
  if bool_decide (s ∈ dom (nodes g)) then
    if bool_decide (l ⊆ atomic_propositions g) then
      modify (set_nodes (<[s := Some l]>))
    else raise DomainError
  else raise UnknownStateError.

(** Modelled from the spec: [states.initial |= ids] (section 4.2,
    [set_initial]: "every id must already exist; ... union
    semantics"). *)
Definition states_initial_ior (ids : list pyval) : M graph unit :=
  for_each ids (fun s =>
    let* g := get in
    if bool_decide (s ∈ dom (nodes g)) then
      modify (set_initial (fun i => i ∪ {[s]}))
    else raise UnknownStateError).

(** Modelled from the spec: [transitions.add] (section 4.2,
    [add_transition]: "both endpoints must exist; fails with
    UnknownStateError otherwise"); the relation is an ordered
    multiset. *)
Definition transitions_add (from_state to_state : pyval) : M graph unit :=
  let* g := get in
  if bool_decide (from_state ∈ dom (nodes g))
     && bool_decide (to_state ∈ dom (nodes g)) then
    modify (set_edges (fun e => (e ++ [(from_state, to_state, None)])%list))
  else raise UnknownStateError.

(** Modelled from the spec: [transitions.add_labeled] (section 4.2,
    "label fields validated against the schema"). *)
Definition transitions_add_labeled (from_state to_state act : pyval)
    : M graph unit :=
  let* g := get in
  if bool_decide (from_state ∈ dom (nodes g))
     && bool_decide (to_state ∈ dom (nodes g)) then
    if bool_decide (act ∈ actions g) then
      modify (set_edges (fun e =>
        (e ++ [(from_state, to_state, Some act)])%list))
    else raise DomainError
  else raise UnknownStateError.

(** Modelled from the spec: [states.find()], the states with their label
    dicts. *)
Definition states_find g : list (pyval * label_dict) :=
  map_to_list (nodes g).

(** Modelled from the spec: [transitions.find()], the edges with their
    label dicts, in insertion order. *)
Definition transitions_find g : list edge := edges g.
End graph_layer.

(** ** The store *)

Abbreviation loc := positive.

(** An instance: its identity, its name and the reference to its
    containers.  No function below rebinds an attribute of an instance
    ([|=] on a [MathSet] updates the set in place and rebinds the attribute
    to the same set), so an instance is passed by value. *)
Record FiniteTransitionSystem := FTS {
  self_id : positive;
  name : string;
  containers : loc
}.

Global Instance FiniteTransitionSystem_eq_dec : EqDecision FiniteTransitionSystem.
Proof. solve_decision. Defined.

(** The open variant and the Büchi automaton are only operands here. *)
Record OpenFiniteTransitionSystem := OpenFTS {
  open_self_id : positive;
  open_containers : loc
}.
Record BuchiAutomaton := BA { ba_self_id : positive }.

Record heap := Heap {
  graphs : gmap loc graph;
  next_id : positive
}.

Definition graph_of (h : heap) (r : loc) : graph :=
  default (empty_graph false) (graphs h !! r).

Definition store_graph (r : loc) (g : graph) (h : heap) : heap :=
  Heap (<[r := g]> (graphs h)) (next_id h).

(** Runs a computation on the containers behind [r]. *)
Definition with_graph {A} (r : loc) (m : M graph A) : M heap A :=
  fun h => let '(res, g') := m (graph_of h r) in (res, store_graph r g' h).

(** [FiniteTransitionSystem(name=..., mutable=...)]: a new instance over
    new, empty containers. *)
Definition new_FiniteTransitionSystem (nm : string) (mutable : bool)
    : M heap FiniteTransitionSystem :=
  fun h =>
    let r := fresh (dom (graphs h)) in
    (Ok (FTS (next_id h) nm r),
     Heap (<[r := empty_graph mutable]> (graphs h)) (Pos.succ (next_id h))).

(** [copy.copy(self)]: a new instance with the attributes of [self], hence
    over the same containers. *)
Definition copy_copy (self : FiniteTransitionSystem)
    : M heap FiniteTransitionSystem :=
  fun h => (Ok (FTS (next_id h) (name self) (containers self)),
            Heap (graphs h) (Pos.succ (next_id h))).

(** What an operator can be applied to. *)
Inductive operand :=
| OpFTS (ts : FiniteTransitionSystem)
| OpOpenFTS (ofts : OpenFiniteTransitionSystem)
| OpBA (ba : BuchiAutomaton)
| OpOther (v : pyval).

Definition read (r : loc) : M heap graph := fun h => (Ok (graph_of h r), h).

Definition lift_result {St A} (r : result A) : M St A := fun s => (r, s).

(** ** Products of the graph layer *)

Definition label_set (l : label_dict) : gset pyval := default ∅ l.

(** Modelled from the spec: the states of a product are the pairs of
    states, labelled with the union of the two labels, and its initial
    states are the pairs of initial states (section 4.3). *)
Definition product_nodes (g1 g2 : graph) : gmap pyval label_dict :=
  list_to_map (
    p1 ← map_to_list (nodes g1); p2 ← map_to_list (nodes g2);
    [(VTuple p1.1 p2.1, Some (label_set p1.2 ∪ label_set p2.2))]).

Definition product_initial (g1 g2 : graph) : gset pyval :=
  MathSet_mul (initial g1) (initial g2).

(** Modelled from the spec: the transitions of the synchronous product,
    one for every pair of labelled transitions of the operands
    (section 4.3). *)
Definition tensor_edges (g1 g2 : graph) : list edge :=
  e1 ← edges g1; e2 ← edges g2;
  match e1, e2 with
  | (s1, t1, Some a1), (s2, t2, Some a2) =>
      [(VTuple s1 s2, VTuple t1 t2, Some (VTuple a1 a2))]
  | _, _ => []
  end.

(** Modelled from the spec: the transitions of the asynchronous product;
    one operand moves and the other stays (section 4.3). *)
Definition interleaving_edges (g1 g2 : graph) : list edge :=
  ((e1 ← edges g1; s2 ← map_to_list (nodes g2);
    [(VTuple e1.1.1 s2.1, VTuple e1.1.2 s2.1, e1.2)]) ++
   (e2 ← edges g2; s1 ← map_to_list (nodes g1);
    [(VTuple s1.1 e2.1.1, VTuple s1.1 e2.1.2, e2.2)]))%list.

(** Modelled from the spec: [LabeledStateDiGraph.tensor_product] and
    [cartesian_product] fill the states, the initial states and the
    transitions of [prod_sys] and return it; they leave its label universes
    as the caller set them (section 4.3 gives the universes of the product
    as exactly what the callers below compute). *)
Definition tensor_product (g1 g2 : graph) : M graph unit :=
  modify (set_nodes (fun _ => product_nodes g1 g2)) ;;
  modify (set_initial (fun _ => product_initial g1 g2)) ;;
  modify (set_edges (fun _ => tensor_edges g1 g2)).

Definition cartesian_product (g1 g2 : graph) : M graph unit :=
  modify (set_nodes (fun _ => product_nodes g1 g2)) ;;
  modify (set_initial (fun _ => product_initial g1 g2)) ;;
  modify (set_edges (fun _ => interleaving_edges g1 g2)).

(** ** class FiniteTransitionSystem *)

(** The loop of [__add__] over the states of [other] and their labels. *)
Definition merge_states (found : list (pyval * label_dict)) : M graph unit :=
  for_each found (fun '(state, label) =>
    let* present := states_contains state in
    (if negb present then states_add state else ret tt) ;;
    match label with
    | Some ap => states_label state ap
    | None => ret tt
    end).

(** The loop of [__add__] over the transitions of [other]. *)
Definition merge_transitions (found : list edge) : M graph unit :=
  for_each found (fun '(from_state, to_state, label_dict) =>
    (* labeled edge ? *)
    match label_dict with
    | None => transitions_add from_state to_state
    | Some sublabel_value =>
        transitions_add_labeled from_state to_state sublabel_value
    end).

(** [self + other]; the message of the [TypeError] is built with
    [str(other)], which is taken to return. *)
Definition __add__ (self : FiniteTransitionSystem) (other : operand)
    : M heap FiniteTransitionSystem :=
  match other with
  | OpFTS other =>
      let* o := read (containers other) in
      with_graph (containers self)
        (modify (set_atomic_propositions
                   (fun a => MathSet_ior a (atomic_propositions o)))) ;;
      let* o := read (containers other) in
      with_graph (containers self)
        (modify (set_actions (fun a => MathSet_ior a (actions o)))) ;;
      (* add extra states & their labels *)
      let* o := read (containers other) in
      with_graph (containers self) (merge_states (states_find o)) ;;
      let* o := read (containers other) in
      with_graph (containers self)
        (states_initial_ior (elements (initial o))) ;;
      (* copy extra transitions (be careful w/ labeling) *)
      let* o := read (containers other) in
      with_graph (containers self) (merge_transitions (transitions_find o)) ;;
      copy_copy self
  | _ => raise TypeError
  end.

Definition _sync_prod (self ts : FiniteTransitionSystem)
    : M heap FiniteTransitionSystem :=
  let* g1 := read (containers self) in
  let* g2 := read (containers ts) in
  let mutable := if mutants g1 || mutants g2 then true else false in
  let* prod_ts := new_FiniteTransitionSystem "" mutable in
  (* union of AP sets *)
  with_graph (containers prod_ts)
    (modify (set_atomic_propositions (fun a =>
       MathSet_ior a (MathSet_or (atomic_propositions g1)
                                 (atomic_propositions g2))))) ;;
  (* for synchronous product: Cartesian product of action sets *)
  with_graph (containers prod_ts)
    (modify (set_actions (fun a =>
       MathSet_ior a (MathSet_mul (actions g1) (actions g2))))) ;;
  with_graph (containers prod_ts) (tensor_product g1 g2) ;;
  ret prod_ts.

Definition async_prod (self : FiniteTransitionSystem) (ts : operand)
    : M heap FiniteTransitionSystem :=
  match ts with
  | OpFTS ts =>
      let* g1 := read (containers self) in
      let* g2 := read (containers ts) in
      let mutable := if mutants g1 || mutants g2 then true else false in
      (* union of AP sets *)
      let* prod_ts := new_FiniteTransitionSystem "" mutable in
      with_graph (containers prod_ts)
        (modify (set_atomic_propositions (fun a =>
           MathSet_ior a (MathSet_or (atomic_propositions g1)
                                     (atomic_propositions g2))))) ;;
      (* for parallel product: union of action sets *)
      with_graph (containers prod_ts)
        (modify (set_actions (fun a =>
           MathSet_ior a (MathSet_or (actions g1) (actions g2))))) ;;
      with_graph (containers prod_ts) (cartesian_product g1 g2) ;;
      ret prod_ts
  | _ => raise TypeError
  end.

(** [self | ts] *)
Definition __or__ (self : FiniteTransitionSystem) (ts : operand) :=
  async_prod self ts.

Section sync_prod.
(** [automata._ts_ba_sync_prod], the product with a Büchi automaton, is
    outside the module. *)
Variable _ts_ba_sync_prod :
  FiniteTransitionSystem → BuchiAutomaton → M heap FiniteTransitionSystem.

Definition sync_prod (self : FiniteTransitionSystem) (ts_or_ba : operand)
    : M heap FiniteTransitionSystem :=
  match ts_or_ba with
  | OpFTS ts => _sync_prod self ts
  | OpBA ba => _ts_ba_sync_prod self ba
  | _ => raise Exception
  end.

(** [self * ts_or_ba] *)
Definition __mul__ (self : FiniteTransitionSystem) (ts_or_ba : operand) :=
  sync_prod self ts_or_ba.
End sync_prod.

(** *** Operations between transition systems left unimplemented *)

Definition intersection (self : FiniteTransitionSystem)
    : M heap FiniteTransitionSystem := raise NotImplementedError.

Definition difference (self : FiniteTransitionSystem)
    : M heap FiniteTransitionSystem := raise NotImplementedError.

Definition composition (self : FiniteTransitionSystem)
    : M heap FiniteTransitionSystem := raise NotImplementedError.

Definition project (self : FiniteTransitionSystem) (factor : option Z)
    : M heap FiniteTransitionSystem := raise NotImplementedError.

Definition simulate {A} (self : FiniteTransitionSystem) (state_sequence : A)
    : M heap (list pyval) := raise NotImplementedError.

Definition sim {A} (self : FiniteTransitionSystem) (state_sequence : A)
    : M heap (list pyval) := simulate self state_sequence.

Definition is_simulation {A} (self : FiniteTransitionSystem) (simulation : A)
    : M heap bool := raise NotImplementedError.

(** ** Builders *)

(** What a caller passes as a label or as an entry of a labeling: a
    hashable value (a string among them), a set of values, or a pair of a
    state and a set. *)
Inductive pyobj :=
| OVal (v : pyval)
| OSet (s : gset pyval)
| OPair (state : pyval) (label : gset pyval).

(** [negate] of [negation_closure]: [x.find('!') == 0] holds when [x]
    starts with ['!']. *)
Definition negate (x : string) : string :=
  match x with
  | String "!"%char rest => rest
  | _ => "!" +:+ x
  end.

(** The list comprehension of [negation_closure]; [negate] calls [x.find],
    which only a string has. *)
Fixpoint closure_items (atomic_propositions : list pyobj)
    : result (list pyval) :=
  match atomic_propositions with
  | [] => Ok []
  | OVal (VStr x) :: rest =>
      match closure_items rest with
      | Ok ap => Ok (VStr x :: VStr (negate x) :: ap)
      | Raise e => Raise e
      end
  | _ :: _ => Raise AttributeError
  end.

(** The argument is a list, hence an [Iterable]: the [TypeError] of the
    source cannot arise. *)
Definition negation_closure (atomic_propositions : list pyobj)
    : result (list pyval) :=
  match closure_items atomic_propositions with
  | Ok ap => Ok (unique (ap ++ [VTrue]))
  | Raise e => Raise e
  end.

(** [(state, ap_label) = x]: a pair unpacks, a string or a set of exactly
    two elements does too (a set in the order of [elements], Python leaving
    the order of a set open), anything else that is iterable is a
    [ValueError], and a value that is not iterable a [TypeError]. *)
Definition unpack_pair (x : pyobj) : result (pyval * pyobj) :=
  match x with
  | OPair state label => Ok (state, OSet label)
  | OVal (VTuple a b) => Ok (a, OVal b)
  | OVal (VStr (String c1 (String c2 ""))) =>
      Ok (VStr (String c1 ""), OVal (VStr (String c2 "")))
  | OVal (VStr _) => Raise ValueError
  | OVal _ => Raise TypeError
  | OSet s =>
      match elements s with
      | [a; b] => Ok (a, OVal b)
      | _ => Raise ValueError
      end
  end.

Definition is_str (x : pyobj) : bool :=
  match x with OVal (VStr _) => true | _ => false end.

(** [pair_labels_with_states] of [tuple2fts].  Its result is iterated by
    [for (state, ap_label) in state_labeling]: each entry is the outcome of
    unpacking one item, which for a zipped item is the pair itself. *)
Definition pair_labels_with_states (states : list pyval)
    (state_labeling : option (list pyobj))
    : result (option (list (result (pyval * pyobj)))) :=
  match state_labeling with
  | None => Ok None
  | Some [] => Raise IndexError
  | Some ((first :: _) as labeling) =>
      let state_label_pairs := true in
      (* cannot be caught by try below *)
      let state_label_pairs :=
        if is_str first then false else state_label_pairs in
      match unpack_pair first with
      | Raise ValueError =>
          Ok (Some (map Ok (zip states labeling)))
      | Raise e => Raise e
      | Ok _ =>
          if state_label_pairs then Ok (Some (map unpack_pair labeling))
          else Ok (Some (map Ok (zip states labeling)))
      end
  end.

(** Modelled from the spec: [str2singleton] of [labeled_graphs.py]
    (section 4.5, "a bare label value that is a single atomic-proposition
    identifier is treated as a singleton subset"). *)
Definition str2singleton (ap_label : pyobj) : pyobj :=
  match ap_label with
  | OVal (VStr s) => OSet {[ VStr s ]}
  | _ => ap_label
  end.

(** [states.label] applied to what the caller passed: a label that is not
    a set is outside the power set of the propositions. *)
Definition states_label_obj (state : pyval) (ap_label : pyobj)
    : M graph unit :=
  match ap_label with
  | OSet l => states_label state l
  | _ => raise DomainError
  end.

(** The initial states as passed: an iterable, or one state ([S0] that is
    not iterable, or a string). *)
Inductive initial_arg :=
| S0_iter (l : list pyval)
| S0_single (v : pyval).

(** [(x,) = prepend_with([x], prepend_str)] *)
Definition prepend1 (x : pyval) (prepend_str : option string) : pyval :=
  match prepend_with [x] prepend_str with
  | [y] => y
  | _ => x
  end.

(** The loop of [tuple2fts] over the state labeling. *)
Definition label_states (state_labeling : list (result (pyval * pyobj)))
    (prepend_str : option string) : M graph unit :=
  for_each state_labeling (fun item =>
    let* (state, ap_label) := lift_result item in
    let ap_label := str2singleton ap_label in
    let state := prepend1 state prepend_str in
    states_label_obj state ap_label).

(** The two loops of [tuple2fts] over the transitions.  A transition is
    passed as a pair [(from, to)] (no action) or as a triple with an
    action; unpacking the other shape is a [ValueError]. *)
Definition add_unlabeled (transitions : list edge)
    (prepend_str : option string) : M graph unit :=
  for_each transitions (fun t =>
    match t with
    | (from_state, to_state, None) =>
        let from_state := prepend1 from_state prepend_str in
        let to_state := prepend1 to_state prepend_str in
        transitions_add from_state to_state
    | (_, _, Some _) => raise ValueError
    end).

Definition add_labeled (transitions : list edge)
    (prepend_str : option string) : M graph unit :=
  for_each transitions (fun t =>
    match t with
    | (from_state, to_state, Some act) =>
        let from_state := prepend1 from_state prepend_str in
        let to_state := prepend1 to_state prepend_str in
        transitions_add_labeled from_state to_state act
    | (_, _, None) => raise ValueError
    end).

(** The statements of [tuple2fts] that fill the new system [ts]; all of
    them work on the containers of [ts]. *)
Definition populate (states initial_states ap : list pyval)
    (state_labeling : option (list (result (pyval * pyobj))))
    (actions : option (list pyval)) (transitions : list edge)
    (prepend_str : option string) : M graph unit :=
  states_add_from states ;;
  states_initial_ior initial_states ;;
  modify (set_atomic_propositions (fun a => MathSet_ior a (list_to_set ap))) ;;
  (* state labeling assigned ? *)
  match state_labeling with
  | Some state_labeling => label_states state_labeling prepend_str
  | None => ret tt
  end ;;
  (* any transition labeling ? *)
  match actions with
  | None => add_unlabeled transitions prepend_str
  | Some actions =>
      modify (set_actions (fun a => MathSet_ior a (list_to_set actions))) ;;
      add_labeled transitions prepend_str
  end.

(** [verbose] only prints and is left out. *)
Definition tuple2fts (S : list pyval) (S0 : initial_arg) (AP : list pyval)
    (L : option (list pyobj)) (Act : option (list pyval))
    (trans : list edge) (name : string) (prepend_str : option string)
    : M heap FiniteTransitionSystem :=
  (* convention *)
  let S0 := match S0 with S0_iter l => l | S0_single v => [v] end in
  (* comprehensive names *)
  let states := S in
  let initial_states := S0 in
  let ap := AP in
  let* state_labeling := lift_result (pair_labels_with_states states L) in
  let actions := Act in
  let transitions := trans in
  (* prepending states with given str *)
  let states := prepend_with states prepend_str in
  let initial_states := prepend_with initial_states prepend_str in
  let* ts := new_FiniteTransitionSystem name false in
  with_graph (containers ts)
    (populate states initial_states ap state_labeling actions transitions
              prepend_str) ;;
  ret ts.

(** [range(a, b)] *)
Definition range (a b : Z) : list pyval := VInt <$> seqZ a (b - a).

Definition line_labeled_with (L : list pyobj) (m : Z)
    : M heap FiniteTransitionSystem :=
  let n := Z.of_nat (length L) in
  let S := range m (m + n) in
  let S0 := S0_iter [] in
  let* AP := lift_result (negation_closure L) in
  let Act := None in
  let from_states := range m (m + n - 1) in
  let to_states := range (m + 1) (m + n) in
  let trans := (fun p => (p.1, p.2, None)) <$> zip from_states to_states in
  let* ts := tuple2fts S S0 AP (Some L) Act trans "fts" (Some "s") in
  ret ts.

Definition cycle_labeled_with (L : list pyobj)
    : M heap FiniteTransitionSystem :=
  let* ts := line_labeled_with L 0 in
  let last_state := VStr ("s" +:+ str (VInt (Z.of_nat (length L) - 1))) in
  with_graph (containers ts) (transitions_add last_state (VStr "s0")) ;;
  ret ts.

(** The empty store. *)
Definition empty_heap : heap := Heap ∅ 1.

(** ** Definitions used in the statements *)

(** The error kinds of the specification (section 7) as the exception
    classes of the module: the unimplemented operations, for which the
    specification reserves [UnsupportedOperationError], raise
    [NotImplementedError]; a type mismatch is a [TypeError]. *)
Definition UnsupportedOperationError : exn := NotImplementedError.

Definition TypeMismatchError : exn := TypeError.

(** [isinstance(o, FiniteTransitionSystem)] and
    [isinstance(o, automata.BuchiAutomaton)]. *)
Definition is_fts (o : operand) : bool :=
  match o with OpFTS _ => true | _ => false end.

Definition is_ba (o : operand) : bool :=
  match o with OpBA _ => true | _ => false end.

(** The node dict after [states.add_from(l)]. *)
Definition add_states (l : list pyval) (n : gmap pyval label_dict)
    : gmap pyval label_dict :=
  foldl (λ n s, match n !! s with Some _ => n | None => <[s := None]> n end) n l.

(** What a statement that only relabels states or adds edges leaves as it
    was. *)
Definition same_universe (g g' : graph) : Prop :=
  atomic_propositions g' = atomic_propositions g ∧
  actions g' = actions g ∧
  dom (nodes g') = dom (nodes g) ∧
  initial g' = initial g.

(** A transition with the prefix put in front of both ends. *)
Definition prefix_edge (prepend_str : option string) (e : edge) : edge :=
  (prepend1 e.1.1 prepend_str, prepend1 e.1.2 prepend_str, e.2).

(** The initial states after the convention of [tuple2fts] on [S0]. *)
Definition initial_list (S0 : initial_arg) : list pyval :=
  match S0 with S0_iter l => l | S0_single v => [v] end.

(** The states and the transitions [line_labeled_with] passes on. *)
Definition line_states (n : nat) (m : Z) : list pyval :=
  range m (m + Z.of_nat n).

Definition line_transitions (n : nat) (m : Z) : list edge :=
  (λ p, (p.1, p.2, None)) <$>
    zip (range m (m + Z.of_nat n - 1)) (range (m + 1) (m + Z.of_nat n)).

(** The invariants of the data model: every state label is a set of
    propositions of the system, every initial state is a state, every
    transition joins two states and its action, if any, is an action of
    the system. *)
Definition well_formed (g : graph) : bool :=
  forallb (λ '(_, lab), bool_decide (label_set lab ⊆ atomic_propositions g))
          (map_to_list (nodes g))
  && bool_decide (initial g ⊆ dom (nodes g))
  && forallb (λ '(f, t, a),
        bool_decide (f ∈ dom (nodes g)) && bool_decide (t ∈ dom (nodes g))
        && match a with
           | Some x => bool_decide (x ∈ actions g)
           | None => true
           end)
       (edges g).

(** One round of the loop of [__add__] over the states, on the node
    dict. *)
Definition merge_node (n : gmap pyval label_dict) (found : pyval * label_dict)
    : gmap pyval label_dict :=
  let n' := match n !! found.1 with
            | Some _ => n
            | None => <[found.1 := None]> n
            end in
  match found.2 with
  | Some ap => <[found.1 := Some ap]> n'
  | None => n'
  end.

(** The containers of the target after the source has been merged in. *)
Definition merged (gt gs : graph) : graph :=
  Graph (atomic_propositions gt ∪ atomic_propositions gs)
        (actions gt ∪ actions gs)
        (foldl merge_node (nodes gt) (map_to_list (nodes gs)))
        (initial gt ∪ initial gs)
        (edges gt ++ edges gs)
        (mutants gt).

(** A computation keeps a property of the state when the state it leaves
    has the property whenever the state it started from has it, whether it
    returns or raises. *)
Definition keeps {St A} (P : St → Prop) (m : M St A) : Prop :=
  ∀ s r s', P s → m s = (r, s') → P s'.

(** All the containers of the store are well formed. *)
Definition heap_well_formed (h : heap) : Prop :=
  ∀ r g, graphs h !! r = Some g → well_formed g = true.

(** The node dict after the loop of [tuple2fts] over the pairs of a state
    and its label. *)
Definition label_nodes (prepend_str : option string)
    (pairs : list (pyval * gset pyval)) (n : gmap pyval label_dict)
    : gmap pyval label_dict :=
  foldl (λ n sl, <[prepend1 sl.1 prepend_str := Some sl.2]> n) n pairs.

(** An entry of the state labeling that unpacks to the state and, after
    [str2singleton], to the label of a pair. *)
Definition labels_as (item : result (pyval * pyobj)) (sl : pyval * gset pyval)
    : Prop :=
  ∃ lab, item = Ok (sl.1, lab) ∧ str2singleton lab = OSet sl.2.


(** The name [tuple2fts] gives to state [i] under the prefix 's'. *)
Definition state_name (i : Z) : pyval := VStr ("s" +:+ str (VInt i)).

Global Instance state_name_inj : Inj (=) (=) state_name.
Proof.
  intros i j Hij.
  assert (Hstr : str (VInt i) = str (VInt j)).
  { apply (inj (String.app "s")). unfold state_name in Hij. congruence. }
  by apply (inj (pretty : Z → string)).
Defined.

(** The containers [line_labeled_with] builds from the labels [ps], the
    first index [m] and the propositions [AP]. *)
Definition line_graph (ps : list string) (m : Z) (AP : list pyval) : graph :=
  Graph (list_to_set AP) ∅
        (label_nodes (Some "s")
           (zip (line_states (length ps) m) ((λ p, {[VStr p]}) <$> ps))
           (add_states (prepend_with (line_states (length ps) m) (Some "s")) ∅))
        ∅
        (prefix_edge (Some "s") <$> line_transitions (length ps) m)
        false.

(** * Properties *)

(** ** Running computations *)

Lemma graph_of_store r g h : graph_of (store_graph r g h) r = g.
Proof. unfold graph_of, store_graph; simpl. by rewrite lookup_insert_eq. Qed.

Lemma graph_of_store_ne r r' g h :
  r ≠ r' → graph_of (store_graph r g h) r' = graph_of h r'.
Proof. intros Hne. unfold graph_of, store_graph; simpl. by rewrite lookup_insert_ne. Qed.

Lemma store_store r g g' h :
  store_graph r g' (store_graph r g h) = store_graph r g' h.
Proof. unfold store_graph; simpl. by rewrite insert_insert_eq. Qed.

Lemma with_graph_run {A} r (m : M graph A) h res g' :
  m (graph_of h r) = (res, g') →
  with_graph r m h = (res, store_graph r g' h).
Proof. intros Hm. unfold with_graph. by rewrite Hm. Qed.

(** Two statements on the same containers run as one block on them. *)
Lemma with_graph_bind {A B} r (m : M graph A) (k : A → M graph B) h :
  with_graph r (bind m k) h = bind (with_graph r m) (fun a => with_graph r (k a)) h.
Proof.
  unfold with_graph, bind.
  destruct (m (graph_of h r)) as [[a|e] g1]; [|done].
  rewrite graph_of_store.
  destruct (k a g1) as [res g2]. by rewrite store_store.
Qed.

Lemma bind_run {St A B} (m : M St A) (k : A → M St B) s a s' :
  m s = (Ok a, s') → bind m k s = k a s'.
Proof. intros Hm. unfold bind. by rewrite Hm. Qed.

Lemma bind_raise {St A B} (m : M St A) (k : A → M St B) s e s' :
  m s = (Raise e, s') → bind m k s = (Raise e, s').
Proof. intros Hm. unfold bind. by rewrite Hm. Qed.

Lemma bind_inv {St A B} (m : M St A) (k : A → M St B) s b s' :
  bind m k s = (Ok b, s') → ∃ a s1, m s = (Ok a, s1) ∧ k a s1 = (Ok b, s').
Proof.
  unfold bind. destruct (m s) as [[a|e] s1]; [eauto|done].
Qed.

(** A property kept by every round of a loop is kept by the loop, whether
    it ends or raises. *)
Lemma for_each_invariant {St A} (P : St → Prop) (l : list A)
    (body : A → M St unit) :
  (∀ x s r s', x ∈ l → P s → body x s = (r, s') → P s') →
  ∀ s r s', P s → for_each l body s = (r, s') → P s'.
Proof.
  induction l as [|x l IH]; intros Hbody s r s' HP Hrun; simpl in Hrun.
  - by inversion Hrun; subst.
  - unfold bind in Hrun. destruct (body x s) as [[[]|e] s1] eqn:Hx.
    + eapply IH; [|eapply Hbody; [left|done..]|done].
      intros y t r' t' Hy. apply Hbody. by right.
    + inversion Hrun; subst. eapply Hbody; [left|done..].
Qed.

(** A loop whose rounds all return returns. *)
Lemma for_each_total {St A} (P : St → Prop) (l : list A)
    (body : A → M St unit) :
  (∀ x s, x ∈ l → P s → ∃ s', body x s = (Ok tt, s') ∧ P s') →
  ∀ s, P s → ∃ s', for_each l body s = (Ok tt, s') ∧ P s'.
Proof.
  induction l as [|x l IH]; intros Hbody s HP; simpl.
  - by exists s.
  - destruct (Hbody x s) as (s1 & Hx & HP1); [left|done|].
    unfold bind. rewrite Hx. apply IH; [|done].
    intros y t Hy. apply Hbody. by right.
Qed.

(** ** The label universes of the products *)

Lemma elem_of_cartesian (a b : list pyval) x :
  x ∈ cartesian a b ↔ ∃ u v, x = VTuple u v ∧ u ∈ a ∧ v ∈ b.
Proof.
  unfold cartesian. rewrite list_elem_of_bind. split.
  - intros (u & Hx & Hu). apply list_elem_of_bind in Hx as (v & Hx & Hv).
    apply list_elem_of_singleton in Hx. eauto.
  - intros (u & v & -> & Hu & Hv). exists u. split; [|done].
    apply list_elem_of_bind. exists v. split; [|done]. by left.
Qed.

Lemma NoDup_cartesian (a b : list pyval) :
  NoDup a → NoDup b → NoDup (cartesian a b).
Proof.
  intros Ha Hb. unfold cartesian. apply NoDup_bind; [| |done].
  - intros u1 u2 y _ _ H1 H2.
    apply list_elem_of_bind in H1 as (v1 & H1 & _).
    apply list_elem_of_bind in H2 as (v2 & H2 & _).
    apply list_elem_of_singleton in H1, H2. congruence.
  - intros u _. apply NoDup_bind; [| |done].
    + intros v1 v2 y _ _ H1 H2.
      apply list_elem_of_singleton in H1, H2. congruence.
    + intros v _. apply NoDup_singleton.
Qed.

Lemma length_cartesian (a b : list pyval) :
  length (cartesian a b) = (length a * length b)%nat.
Proof.
  unfold cartesian. induction a as [|u a IH]; [done|].
  rewrite bind_cons, length_app, IH. simpl. f_equal.
  clear. induction b as [|v b IH]; [done|].
  rewrite bind_cons. simpl. by rewrite IH.
Qed.

Lemma elem_of_MathSet_mul (a b : gset pyval) x :
  x ∈ MathSet_mul a b ↔ ∃ u v, x = VTuple u v ∧ u ∈ a ∧ v ∈ b.
Proof.
  unfold MathSet_mul. rewrite elem_of_list_to_set, elem_of_cartesian.
  by setoid_rewrite elem_of_elements.
Qed.

Lemma size_MathSet_mul (a b : gset pyval) :
  size (MathSet_mul a b) = (size a * size b)%nat.
Proof.
  unfold MathSet_mul.
  rewrite size_list_to_set by (apply NoDup_cartesian; apply NoDup_elements).
  apply length_cartesian.
Qed.

Lemma graph_of_alloc h g :
  graph_of (Heap (<[fresh (dom (graphs h)) := g]> (graphs h)) (Pos.succ (next_id h)))
           (fresh (dom (graphs h))) = g.
Proof. unfold graph_of; simpl. by rewrite lookup_insert_eq. Qed.

(** C1. The synchronous product of two closed systems returns a system
    whose action set is the Cartesian product of the action sets of the
    operands: its elements are exactly the pairs of an action of the first
    and an action of the second, and their number is the product of the two
    sizes (in particular when both alphabets are non-empty). *)
Theorem sync_prod_actions_cartesian
    (ba_prod : FiniteTransitionSystem → BuchiAutomaton → M heap FiniteTransitionSystem)
    (T1 T2 : FiniteTransitionSystem) (h : heap) :
  ∃ P h',
    sync_prod ba_prod T1 (OpFTS T2) h = (Ok P, h') ∧
    actions (graph_of h' (containers P))
      = MathSet_mul (actions (graph_of h (containers T1)))
                    (actions (graph_of h (containers T2))) ∧
    (∀ x, x ∈ actions (graph_of h' (containers P)) ↔
          ∃ a1 a2, x = VTuple a1 a2 ∧
                   a1 ∈ actions (graph_of h (containers T1)) ∧
                   a2 ∈ actions (graph_of h (containers T2))) ∧
    size (actions (graph_of h' (containers P)))
      = (size (actions (graph_of h (containers T1)))
         * size (actions (graph_of h (containers T2))))%nat.
Proof.
  unfold sync_prod, _sync_prod, read, new_FiniteTransitionSystem, with_graph,
    bind, ret, modify, tensor_product. simpl.
  rewrite graph_of_alloc. simpl.
  eexists _, _. split; [reflexivity|].
  rewrite !graph_of_store. simpl.
  assert (Heq : MathSet_ior ∅ (MathSet_mul (actions (graph_of h (containers T1)))
                    (actions (graph_of h (containers T2))))
                = MathSet_mul (actions (graph_of h (containers T1)))
                    (actions (graph_of h (containers T2)))).
  { unfold MathSet_ior. by rewrite (left_id_L ∅ (∪)). }
  rewrite Heq. split; [done|]. split.
  - intros x. apply elem_of_MathSet_mul.
  - apply size_MathSet_mul.
Qed.

(** C2. The asynchronous product of two closed systems returns a system
    whose action set is the union of the action sets of the operands, so
    the number of its actions is the size of that union. *)
Theorem async_prod_actions_union (T1 T2 : FiniteTransitionSystem) (h : heap) :
  ∃ P h',
    async_prod T1 (OpFTS T2) h = (Ok P, h') ∧
    actions (graph_of h' (containers P))
      = actions (graph_of h (containers T1)) ∪ actions (graph_of h (containers T2)) ∧
    (∀ x, x ∈ actions (graph_of h' (containers P)) ↔
          x ∈ actions (graph_of h (containers T1)) ∨
          x ∈ actions (graph_of h (containers T2))) ∧
    size (actions (graph_of h' (containers P)))
      = size (actions (graph_of h (containers T1))
              ∪ actions (graph_of h (containers T2))).
Proof.
  unfold async_prod, read, new_FiniteTransitionSystem, with_graph,
    bind, ret, modify, cartesian_product. simpl.
  rewrite graph_of_alloc. simpl.
  eexists _, _. split; [reflexivity|].
  rewrite !graph_of_store. simpl.
  unfold MathSet_ior, MathSet_or. rewrite (left_id_L ∅ (∪)).
  split; [done|]. split; [|done].
  intros x. apply elem_of_union.
Qed.

(** ** Errors *)

(** C5. Each of the deferred operations [intersection], [difference],
    [composition], [project], [simulate] and [is_simulation] raises
    [NotImplementedError] at once, whatever its arguments and the store:
    it returns no value and leaves the store as it was. *)
Theorem deferred_operations_raise (self : FiniteTransitionSystem) (h : heap)
    (factor : option Z) (state_sequence simulation : pyobj) :
  intersection self h = (Raise UnsupportedOperationError, h) ∧
  difference self h = (Raise UnsupportedOperationError, h) ∧
  composition self h = (Raise UnsupportedOperationError, h) ∧
  project self factor h = (Raise UnsupportedOperationError, h) ∧
  simulate self state_sequence h = (Raise UnsupportedOperationError, h) ∧
  is_simulation self simulation h = (Raise UnsupportedOperationError, h).
Proof. by repeat split. Qed.

(** C4, as stated, fails: the asynchronous product with a Büchi automaton
    raises [TypeError], not the error kind of an unsupported operation, and
    the synchronous product with an open system raises a plain
    [Exception], not a type mismatch. *)
Lemma product_error_kinds_counterexample :
  let self := FTS 1 "ts" 1 in
  let ba_prod := fun _ _ => raise NotImplementedError in
  async_prod self (OpBA (BA 2)) empty_heap = (Raise TypeError, empty_heap) ∧
  async_prod self (OpBA (BA 2)) empty_heap
    ≠ (Raise UnsupportedOperationError, empty_heap) ∧
  sync_prod ba_prod self (OpOpenFTS (OpenFTS 2 2)) empty_heap
    = (Raise Exception, empty_heap) ∧
  sync_prod ba_prod self (OpOpenFTS (OpenFTS 2 2)) empty_heap
    ≠ (Raise TypeMismatchError, empty_heap).
Proof. by repeat split. Qed.

(** C4, amended. The asynchronous product applied to an operand that is
    not a closed transition system (an automaton, an open system) raises
    [TypeError]; the synchronous product applied to an operand that is
    neither a closed transition system nor a Büchi automaton (an open
    system) raises a plain [Exception].  In both cases the call itself
    raises, and the store is as it was. *)
Theorem product_operand_errors
    (ba_prod : FiniteTransitionSystem → BuchiAutomaton → M heap FiniteTransitionSystem)
    (self : FiniteTransitionSystem) (other : operand) (h : heap) :
  is_fts other = false →
  async_prod self other h = (Raise TypeError, h) ∧
  (is_ba other = false → sync_prod ba_prod self other h = (Raise Exception, h)).
Proof. by destruct other. Qed.

Lemma product_operand_errors_witness :
  let self := FTS 1 "ts" 1 in
  let other := OpOpenFTS (OpenFTS 2 2) in
  let ba_prod := fun _ _ => raise NotImplementedError in
  is_fts other = false ∧
  async_prod self other empty_heap = (Raise TypeError, empty_heap) ∧
  sync_prod ba_prod self other empty_heap = (Raise Exception, empty_heap).
Proof.
  split; [reflexivity|].
  destruct (product_operand_errors (fun _ _ => raise NotImplementedError)
              (FTS 1 "ts" 1) (OpOpenFTS (OpenFTS 2 2)) empty_heap eq_refl)
    as (Ha & Hs).
  split; [exact Ha|]. apply Hs. reflexivity.
Defined.

(** ** [negation_closure] *)

Lemma unique_from_elem_of seen l x :
  x ∈ unique_from seen l ↔ x ∈ l ∧ x ∉ seen.
Proof.
  revert seen. induction l as [|a l IH]; intros seen; simpl.
  - rewrite !elem_of_nil. tauto.
  - case_bool_decide as Ha.
    + rewrite IH, elem_of_cons. split; [tauto|].
      intros [[->|Hx] Hn]; [done|tauto].
    + rewrite !elem_of_cons, IH, elem_of_cons. split.
      * intros [->|[Hx Hn]]; tauto.
      * intros [[->|Hx] Hn]; [by left|].
        destruct (decide (x = a)); [by left|right; tauto].
Qed.

Lemma unique_from_NoDup seen l : NoDup (unique_from seen l).
Proof.
  revert seen. induction l as [|a l IH]; intros seen; simpl.
  - constructor.
  - case_bool_decide; [apply IH|].
    constructor; [|apply IH].
    rewrite unique_from_elem_of, elem_of_cons. tauto.
Qed.

(** The elements that precede [x] in the result are those met before the
    first occurrence of [x] in the argument. *)
Lemma unique_from_first_seen seen l l1 x l2 :
  unique_from seen l = (l1 ++ x :: l2)%list →
  ∃ f1 f2, l = (f1 ++ x :: f2)%list ∧ (x ∉ f1) ∧ (x ∉ seen) ∧
           ∀ y, y ∈ l1 ↔ y ∈ f1 ∧ y ∉ seen.
Proof.
  revert seen l1. induction l as [|a l IH]; intros seen l1; simpl.
  - by destruct l1.
  - case_bool_decide as Ha.
    + intros (f1 & f2 & -> & Hx & Hs & Hl)%IH.
      exists (a :: f1), f2. split; [done|]. split.
      { rewrite elem_of_cons. intros [->|]; done. }
      split; [done|]. intros y. rewrite Hl, elem_of_cons. split; [tauto|].
      intros [[->|] ?]; done.
    + destruct l1 as [|b l1]; simpl; intros [= <- Hrest].
      * exists [], l. split; [done|]. split; [apply not_elem_of_nil|].
        split; [done|]. intros y. rewrite !elem_of_nil. tauto.
      * apply IH in Hrest as (f1 & f2 & -> & Hx & Hs & Hl).
        rewrite elem_of_cons in Hs.
        exists (a :: f1), f2. split; [done|]. split.
        { rewrite elem_of_cons. tauto. }
        split; [tauto|]. intros y. rewrite !elem_of_cons, Hl, elem_of_cons.
        split.
        -- intros [->|[? ?]]; tauto.
        -- intros [[->|?] ?]; [by left|].
           destruct (decide (y = a)); [by left|right; tauto].
Qed.

Lemma negate_bang x : negate (String "!" x) = x.
Proof. reflexivity. Qed.

Lemma negate_not_bang c x :
  c ≠ "!"%char → negate (String c x) = String "!" (String c x).
Proof.
  destruct c as [[] [] [] [] [] [] [] []]; intros Hc; try reflexivity.
  by destruct Hc.
Qed.

(** [negate] on a string that does not start with an exclamation mark. *)
Lemma negate_prepends p : (∀ q, p ≠ "!" +:+ q) → negate p = "!" +:+ p.
Proof.
  intros Hp. destruct p as [|c p]; [done|].
  destruct (decide (c = "!"%char)) as [->|Hc]; [by destruct (Hp p)|].
  by apply negate_not_bang.
Qed.

(** The two cases of [negate]. *)
Lemma negate_cases p :
  (∃ q, p = "!" +:+ q ∧ negate p = q)
  ∨ ((∀ q, p ≠ "!" +:+ q) ∧ negate p = "!" +:+ p).
Proof.
  destruct p as [|c p]; [by right|].
  destruct (decide (c = "!"%char)) as [->|Hc]; [left; by exists p|].
  assert (Hp : ∀ q, String c p ≠ "!" +:+ q) by (intros q [= ? _]; done).
  right. split; [done|]. by apply negate_prepends.
Qed.

Lemma closure_items_strings (ps : list string) :
  closure_items (OVal ∘ VStr <$> ps)
  = Ok (ps ≫= λ p, [VStr p; VStr (negate p)]).
Proof.
  induction ps as [|p ps IH]; [done|].
  rewrite fmap_cons. simpl. by rewrite IH.
Qed.

(** The elements of the closure of a list of strings, the toggles
    written out. *)
Lemma negation_closure_elem_of_toggles (ps : list string) AP x :
  negation_closure (OVal ∘ VStr <$> ps) = Ok AP →
  x ∈ AP ↔
    x = VTrue ∨
    ∃ p, p ∈ ps ∧
         (x = VStr p ∨
          (∃ q, p = "!" +:+ q ∧ x = VStr q) ∨
          ((∀ q, p ≠ "!" +:+ q) ∧ x = VStr ("!" +:+ p))).
Proof.
  unfold negation_closure. rewrite closure_items_strings. intros [= <-].
  unfold unique. rewrite unique_from_elem_of.
  rewrite elem_of_app, list_elem_of_bind, list_elem_of_singleton.
  split.
  - intros [[(p & Hx & Hp)| ->] _]; [|by left].
    right. exists p. split; [done|].
    rewrite !elem_of_cons, elem_of_nil in Hx.
    destruct Hx as [->|[->|[]]]; [by left|right].
    destruct (negate_cases p) as [(q & -> & ->)|(Hp' & ->)].
    + left. by exists q.
    + by right.
  - intros [->|(p & Hp & Hx)]; (split; [|apply not_elem_of_nil]); [by right|].
    left. exists p. split; [|done].
    rewrite !elem_of_cons.
    destruct Hx as [->|[(q & -> & ->)|(Hp' & ->)]]; [by left|right; left..].
    + done.
    + by rewrite negate_prepends.
Qed.

(** C6. The toggle of a proposition that starts with an exclamation mark
    is the proposition without it, and the toggle of any other proposition
    is the proposition with an exclamation mark in front.  On every list
    of proposition strings [negation_closure] returns what [unique] makes
    of the list [p1, negate p1, p2, negate p2, ..., True]: with [unique]
    as the specification has it, a list without duplicates whose elements
    are exactly each proposition, its toggle and [True], in the order of
    first occurrence (what precedes an element in the result is what was
    met before its first occurrence in that list).  On 'p' and 'q', in
    either order, the result is 'p', '!p', 'q', '!q', True as a set; on
    '!p', 'p' and 'q' it is the list '!p', 'p', 'q', '!q', True. *)
Theorem negation_closure_spec :
  (∀ q, negate ("!" +:+ q) = q) ∧
  (∀ p, (∀ q, p ≠ "!" +:+ q) → negate p = "!" +:+ p) ∧
  (∀ ps : list string,
     let full := ((ps ≫= λ p, [VStr p; VStr (negate p)]) ++ [VTrue])%list in
     ∃ r, negation_closure (OVal ∘ VStr <$> ps) = Ok r ∧
          r = unique full ∧
          NoDup r ∧
          (∀ x, x ∈ r ↔
                x = VTrue ∨
                ∃ p, p ∈ ps ∧
                     (x = VStr p ∨
                      (∃ q, p = "!" +:+ q ∧ x = VStr q) ∨
                      ((∀ q, p ≠ "!" +:+ q) ∧ x = VStr ("!" +:+ p)))) ∧
          (∀ l1 x l2, r = (l1 ++ x :: l2)%list →
             ∃ f1 f2, full = (f1 ++ x :: f2)%list ∧ (x ∉ f1) ∧
                      ∀ y, y ∈ l1 ↔ y ∈ f1)) ∧
  (∀ r, negation_closure [OVal (VStr "p"); OVal (VStr "q")] = Ok r ∨
        negation_closure [OVal (VStr "q"); OVal (VStr "p")] = Ok r →
        NoDup r ∧
        list_to_set r =@{gset pyval}
          {[ VStr "p"; VStr "!p"; VStr "q"; VStr "!q"; VTrue ]}) ∧
  negation_closure [OVal (VStr "!p"); OVal (VStr "p"); OVal (VStr "q")]
  = Ok [VStr "!p"; VStr "p"; VStr "q"; VStr "!q"; VTrue].
Proof.
  split; [done|]. split; [apply negate_prepends|]. split; [|split; [|done]].
  - intros ps full. unfold negation_closure. rewrite closure_items_strings.
    fold full. exists (unique full). split; [done|]. split; [done|].
    split; [apply unique_from_NoDup|].
    split.
    + intros x. apply (negation_closure_elem_of_toggles ps).
      unfold negation_closure. by rewrite closure_items_strings.
    + intros l1 x l2 Hr. unfold unique in Hr.
      apply unique_from_first_seen in Hr as (f1 & f2 & Hf & Hx & _ & Hl).
      exists f1, f2. split; [done|]. split; [done|].
      intros y. rewrite Hl. split; [tauto|]. intros Hy. split; [done|].
      apply not_elem_of_nil.
  - intros r [Hr|Hr]; vm_compute in Hr; injection Hr as <-.
    + split; [apply (bool_decide_unpack _); by vm_compute|]. set_solver.
    + split; [apply (bool_decide_unpack _); by vm_compute|]. set_solver.
Qed.

(** ** The graph layer *)

Lemma states_add_from_run l g :
  states_add_from l g = (Ok tt, set_nodes (add_states l) g).
Proof.
  revert g. induction l as [|s l IH]; intros g.
  - by destruct g.
  - unfold states_add_from in *. simpl. unfold bind, states_add at 1, modify.
    rewrite IH. by destruct g.
Qed.

Lemma dom_add_states l n : dom (add_states l n) = dom n ∪ list_to_set l.
Proof.
  revert n. induction l as [|s l IH]; intros n; simpl.
  - set_solver.
  - rewrite IH. destruct (n !! s) eqn:Hs.
    + assert (s ∈ dom n) by (apply elem_of_dom; eauto). set_solver.
    + rewrite dom_insert_L. set_solver.
Qed.

Lemma states_initial_ior_inv ids g g' :
  states_initial_ior ids g = (Ok tt, g') →
  g' = set_initial (λ i, i ∪ list_to_set ids) g.
Proof.
  revert g. induction ids as [|s ids IH]; intros g; unfold states_initial_ior in *; simpl.
  - intros [= <-]. destruct g. unfold set_initial; simpl. f_equal. set_solver.
  - unfold bind at 1. unfold bind at 1, get. case_bool_decide; [|done].
    unfold modify at 1. intros ->%IH.
    destruct g. unfold set_initial; simpl. f_equal. set_solver.
Qed.

Lemma states_initial_ior_run ids g :
  (∀ s, s ∈ ids → s ∈ dom (nodes g)) →
  states_initial_ior ids g = (Ok tt, set_initial (λ i, i ∪ list_to_set ids) g).
Proof.
  revert g. induction ids as [|s ids IH]; intros g Hin; unfold states_initial_ior in *; simpl.
  - destruct g. unfold ret, set_initial; simpl. do 2 f_equal. set_solver.
  - unfold bind at 1. unfold bind at 1, get.
    rewrite bool_decide_eq_true_2 by (apply Hin; left).
    unfold modify at 1. rewrite IH.
    + destruct g. unfold set_initial; simpl. do 2 f_equal. set_solver.
    + intros s' Hs'. apply Hin. by right.
Qed.

Lemma same_universe_refl g : same_universe g g.
Proof. done. Qed.

Lemma states_label_frame s l g r g' :
  states_label s l g = (r, g') → same_universe g g' ∧ edges g' = edges g.
Proof.
  unfold states_label, bind, get. repeat case_bool_decide; intros [= <- <-]; try done.
  split; [|done]. repeat split; simpl. rewrite dom_insert_L.
  set_solver.
Qed.

Lemma label_states_frame sl p g r g' :
  label_states sl p g = (r, g') → same_universe g g' ∧ edges g' = edges g.
Proof.
  apply (for_each_invariant (λ g', same_universe g g' ∧ edges g' = edges g));
    [|done].
  intros item g1 r1 g2 _ (Hu & He). unfold bind, lift_result.
  destruct item as [[state ap_label]|e]; [|by intros [= <- <-]].
  unfold states_label_obj. destruct (str2singleton ap_label); [by intros [= <- <-]| |by intros [= <- <-]].
  intros ((H1 & H2 & H3 & H4) & H5)%states_label_frame.
  destruct Hu as (G1 & G2 & G3 & G4). unfold same_universe. 
  rewrite H1, H2, H3, H4, H5. done.
Qed.

Lemma transitions_add_inv f t g g' :
  transitions_add f t g = (Ok tt, g') →
  g' = set_edges (λ e, (e ++ [(f, t, None)])%list) g ∧
  f ∈ dom (nodes g) ∧ t ∈ dom (nodes g).
Proof.
  unfold transitions_add, bind, get.
  destruct (bool_decide (f ∈ dom (nodes g))) eqn:Hf; [|done].
  destruct (bool_decide (t ∈ dom (nodes g))) eqn:Ht; [|done]. simpl.
  intros [= <-]. by apply bool_decide_eq_true in Hf, Ht.
Qed.

Lemma transitions_add_labeled_inv f t a g g' :
  transitions_add_labeled f t a g = (Ok tt, g') →
  g' = set_edges (λ e, (e ++ [(f, t, Some a)])%list) g ∧
  f ∈ dom (nodes g) ∧ t ∈ dom (nodes g) ∧ a ∈ actions g.
Proof.
  unfold transitions_add_labeled, bind, get.
  destruct (bool_decide (f ∈ dom (nodes g))) eqn:Hf; [|done].
  destruct (bool_decide (t ∈ dom (nodes g))) eqn:Ht; [|done]. simpl.
  destruct (bool_decide (a ∈ actions g)) eqn:Ha; [|done].
  intros [= <-]. by apply bool_decide_eq_true in Hf, Ht, Ha.
Qed.

Lemma set_edges_set_edges f1 f2 g :
  set_edges f2 (set_edges f1 g) = set_edges (f2 ∘ f1) g.
Proof. by destruct g. Qed.

Lemma add_unlabeled_inv trans p g g' :
  add_unlabeled trans p g = (Ok tt, g') →
  g' = set_edges (λ e, (e ++ (prefix_edge p <$> trans))%list) g.
Proof.
  revert g. induction trans as [|[[f t] a] trans IH]; intros g;
    unfold add_unlabeled in *; simpl.
  - intros [= <-]. destruct g. unfold set_edges; simpl. by rewrite app_nil_r.
  - intros ([] & g1 & Hadd & Hrest)%bind_inv.
    destruct a; [done|]. apply transitions_add_inv in Hadd as (-> & _).
    apply IH in Hrest as ->. destruct g. unfold set_edges; simpl.
    by rewrite <- app_assoc.
Qed.

Lemma add_labeled_inv trans p g g' :
  add_labeled trans p g = (Ok tt, g') →
  g' = set_edges (λ e, (e ++ (prefix_edge p <$> trans))%list) g.
Proof.
  revert g. induction trans as [|[[f t] a] trans IH]; intros g;
    unfold add_labeled in *; simpl.
  - intros [= <-]. destruct g. unfold set_edges; simpl. by rewrite app_nil_r.
  - intros ([] & g1 & Hadd & Hrest)%bind_inv.
    destruct a; [|done]. apply transitions_add_labeled_inv in Hadd as (-> & _).
    apply IH in Hrest as ->. destruct g. unfold set_edges; simpl.
    by rewrite <- app_assoc.
Qed.

(** ** [tuple2fts] *)

(** What [populate] has done to the containers when it returns. *)
Lemma populate_inv states initial_states ap sl acts trans p g g' :
  populate states initial_states ap sl acts trans p g = (Ok tt, g') →
  atomic_propositions g' = atomic_propositions g ∪ list_to_set ap ∧
  actions g' = actions g ∪ list_to_set (default [] acts) ∧
  dom (nodes g') = dom (nodes g) ∪ list_to_set states ∧
  initial g' = initial g ∪ list_to_set initial_states ∧
  edges g' = (edges g ++ (prefix_edge p <$> trans))%list ∧
  mutants g' = mutants g.
Proof.
  unfold populate.
  intros ([] & g1 & H1 & H)%bind_inv. rewrite states_add_from_run in H1.
  injection H1 as <-.
  apply bind_inv in H as ([] & g2 & H2 & H).
  apply states_initial_ior_inv in H2 as ->.
  apply bind_inv in H as ([] & g3 & H3 & H). injection H3 as <-.
  apply bind_inv in H as ([] & g4 & H4 & H).
  assert (same_universe
            (set_atomic_propositions (λ a, MathSet_ior a (list_to_set ap))
               (set_initial (λ i, i ∪ list_to_set initial_states)
                  (set_nodes (add_states states) g))) g4
          ∧ edges g4 = edges g ∧ mutants g4 = mutants g)
    as ((Hap & Hact & Hdom & Hini) & Hedges & Hmut).
  { destruct sl as [sl|].
    - split; [by eapply label_states_frame|]. split.
      + by apply label_states_frame in H4 as [_ ->].
      + revert H4. unfold label_states.
        apply (for_each_invariant (λ g', mutants g' = mutants g)); [|done].
        intros item s r s' _ Hs. unfold bind, lift_result.
        destruct item as [[st lab]|e]; [|by intros [= <- <-]].
        unfold states_label_obj.
        destruct (str2singleton lab); [by intros [= <- <-]| |by intros [= <- <-]].
        unfold states_label, bind, get.
        repeat case_bool_decide; by intros [= <- <-].
    - by injection H4 as <-. }
  simpl in Hap, Hact, Hdom, Hini. rewrite dom_add_states in Hdom.
  unfold MathSet_ior in *.
  destruct acts as [acts|]; simpl.
  - apply bind_inv in H as ([] & g5 & H5 & H). injection H5 as <-.
    apply add_labeled_inv in H as ->. simpl.
    rewrite Hap, Hact, Hdom, Hini, Hedges, Hmut. done.
  - apply add_unlabeled_inv in H as ->. simpl.
    rewrite Hap, Hact, Hdom, Hini, Hedges, Hmut.
    repeat split; try done. set_solver.
Qed.

(** What a call of [tuple2fts] that returns has built: a new instance over
    new containers, filled from the arguments with the prefix put in front
    of every state; the containers of every other system are as before. *)
Lemma tuple2fts_inv S S0 AP L Act trans name p h ts h' :
  tuple2fts S S0 AP L Act trans name p h = (Ok ts, h') →
  ts = FTS (next_id h) name (fresh (dom (graphs h))) ∧
  next_id h' = Pos.succ (next_id h) ∧
  (∀ r, r ≠ containers ts → graphs h' !! r = graphs h !! r) ∧
  let g := graph_of h' (containers ts) in
  atomic_propositions g = list_to_set AP ∧
  actions g = list_to_set (default [] Act) ∧
  dom (nodes g) = list_to_set (prepend_with S p) ∧
  initial g = list_to_set (prepend_with (initial_list S0) p) ∧
  edges g = prefix_edge p <$> trans ∧
  mutants g = false.
Proof.
  unfold tuple2fts. intros (sl & h0 & Hsl & H)%bind_inv.
  unfold lift_result in Hsl. injection Hsl as Hsl <-.
  apply bind_inv in H as (ts' & h1 & Hnew & H).
  unfold new_FiniteTransitionSystem in Hnew. injection Hnew as <- <-.
  apply bind_inv in H as ([] & h2 & Hpop & H). injection H as <- <-.
  simpl in *. unfold with_graph in Hpop. rewrite graph_of_alloc in Hpop.
  destruct (populate _ _ _ _ _ _ _ _) as [[[]|e] g'] eqn:Hrun; [|done].
  injection Hpop as <-. rewrite graph_of_store.
  split; [done|]. split; [done|]. split.
  { intros r Hr. simpl. by rewrite !lookup_insert_ne. }
  apply populate_inv in Hrun. simpl in Hrun.
  destruct Hrun as (-> & -> & -> & -> & -> & ->).
  repeat split; try set_solver.
Qed.

(** A call of [tuple2fts] returns when the labeling can be paired and
    [populate] returns on the new, empty containers. *)
Lemma tuple2fts_run S S0 AP L Act trans name p h sl g' :
  pair_labels_with_states S L = Ok sl →
  populate (prepend_with S p) (prepend_with (initial_list S0) p) AP sl Act
           trans p (empty_graph false) = (Ok tt, g') →
  tuple2fts S S0 AP L Act trans name p h
  = (Ok (FTS (next_id h) name (fresh (dom (graphs h)))),
     Heap (<[fresh (dom (graphs h)) := g']> (graphs h)) (Pos.succ (next_id h))).
Proof.
  intros Hsl Hpop. unfold tuple2fts, bind, lift_result. rewrite Hsl.
  unfold new_FiniteTransitionSystem, with_graph. simpl.
  rewrite graph_of_alloc. unfold initial_list in Hpop. rewrite Hpop.
  unfold ret, store_graph. simpl. by rewrite insert_insert_eq.
Qed.

(** C7. In any store, [tuple2fts] on states 0 and 1, initial state 0,
    proposition 'p', labels {'p'} and the empty set, action 'a', the
    transition (0, 1, 'a') and the prefix 'x' returns a closed system
    whose states are 'x0' and 'x1', with 'x0' the one initial state, 'x0'
    labeled {'p'}, 'x1' labeled with the empty set, and the single
    transition from 'x0' to 'x1' labeled 'a'.  Whatever the arguments, when
    [tuple2fts] returns with a prefix, every state, every initial state
    and both ends of every transition carry the prefix. *)
Theorem tuple2fts_scenario_and_prefix :
  (∀ h, ∃ ts h',
     tuple2fts [VInt 0; VInt 1] (S0_iter [VInt 0]) [VStr "p"]
               (Some [OSet {[VStr "p"]}; OSet ∅]) (Some [VStr "a"])
               [(VInt 0, VInt 1, Some (VStr "a"))] "fts" (Some "x") h
     = (Ok ts, h') ∧
     let g := graph_of h' (containers ts) in
     dom (nodes g) = {[VStr "x0"; VStr "x1"]} ∧
     initial g = {[VStr "x0"]} ∧
     nodes g !! VStr "x0" = Some (Some {[VStr "p"]}) ∧
     nodes g !! VStr "x1" = Some (Some ∅) ∧
     edges g = [(VStr "x0", VStr "x1", Some (VStr "a"))] ∧
     atomic_propositions g = {[VStr "p"]} ∧
     actions g = {[VStr "a"]}) ∧
  (∀ S S0 AP L Act trans name pre h ts h',
     tuple2fts S S0 AP L Act trans name (Some pre) h = (Ok ts, h') →
     let g := graph_of h' (containers ts) in
     let prefixed s := VStr (pre +:+ str s) in
     dom (nodes g) = list_to_set (prefixed <$> S) ∧
     initial g = list_to_set (prefixed <$> initial_list S0) ∧
     edges g = (λ e, (prefixed e.1.1, prefixed e.1.2, e.2)) <$> trans).
Proof.
  split.
  - intros h.
    pose (g := Graph {[VStr "p"]} {[VStr "a"]}
                 (<[VStr "x0" := Some {[VStr "p"]}]>
                    (<[VStr "x1" := Some ∅]> ∅))
                 {[VStr "x0"]} [(VStr "x0", VStr "x1", Some (VStr "a"))] false).
    eexists _, _. split.
    + apply (tuple2fts_run _ _ _ _ _ _ _ _ _
               (Some [Ok (VInt 0, OSet {[VStr "p"]}); Ok (VInt 1, OSet ∅)]) g);
        vm_compute; reflexivity.
    + simpl. rewrite graph_of_alloc.
      repeat split; vm_compute; reflexivity.
  - intros S S0 AP L Act trans name pre h ts h' Hrun.
    apply tuple2fts_inv in Hrun as (_ & _ & _ & _ & _ & Hdom & Hini & Hedges & _).
    cbv zeta. by rewrite Hdom, Hini, Hedges.
Qed.

Lemma tuple2fts_scenario_and_prefix_witness :
  let ts := FTS 1 "fts" 1 in
  let h' := Heap {[ 1%positive :=
                 Graph {[VStr "p"]} {[VStr "a"]}
                   (<[VStr "x0" := Some {[VStr "p"]}]>
                      (<[VStr "x1" := Some ∅]> ∅))
                   {[VStr "x0"]} [(VStr "x0", VStr "x1", Some (VStr "a"))]
                   false ]} 2 in
  tuple2fts [VInt 0; VInt 1] (S0_iter [VInt 0]) [VStr "p"]
            (Some [OSet {[VStr "p"]}; OSet ∅]) (Some [VStr "a"])
            [(VInt 0, VInt 1, Some (VStr "a"))] "fts" (Some "x") empty_heap
  = (Ok ts, h') ∧
  dom (nodes (graph_of h' (containers ts)))
  = list_to_set [VStr "x0"; VStr "x1"].
Proof.
  intros ts h'.
  assert (Hrun : tuple2fts [VInt 0; VInt 1] (S0_iter [VInt 0]) [VStr "p"]
            (Some [OSet {[VStr "p"]}; OSet ∅]) (Some [VStr "a"])
            [(VInt 0, VInt 1, Some (VStr "a"))] "fts" (Some "x") empty_heap
          = (Ok ts, h')) by (vm_compute; reflexivity).
  split; [exact Hrun|].
  exact (proj1 (proj2 tuple2fts_scenario_and_prefix _ _ _ _ _ _ _ _ _ _ _ Hrun)).
Defined.

Lemma elem_of_range a b v : v ∈ range a b ↔ ∃ z, v = VInt z ∧ a ≤ z < b.
Proof.
  unfold range. rewrite list_elem_of_fmap. setoid_rewrite elem_of_seqZ.
  split; intros (z & Hz & Hr); exists z; (split; [done|lia]).
Qed.

Lemma label_states_run sl p g :
  (∀ item, item ∈ sl →
     ∃ st lab l, item = Ok (st, lab) ∧ str2singleton lab = OSet l ∧
                 prepend1 st p ∈ dom (nodes g) ∧ l ⊆ atomic_propositions g) →
  ∃ g', label_states sl p g = (Ok tt, g').
Proof.
  intros Hsl.
  destruct (for_each_total
              (λ g', dom (nodes g') = dom (nodes g) ∧
                     atomic_propositions g' = atomic_propositions g)
              sl
              (λ item,
                 let* (state, ap_label) := lift_result item in
                 states_label_obj (prepend1 state p) (str2singleton ap_label))
              ) with g as (g' & Hrun & _); [|done|by exists g'].
  intros item g1 Hitem (Hdom & Hap).
  destruct (Hsl item Hitem) as (st & lab & l & -> & Hlab & Hst & Hl).
  unfold bind, lift_result. rewrite Hlab. unfold states_label_obj, states_label, bind, get.
  rewrite !bool_decide_eq_true_2 by (by rewrite ?Hdom, ?Hap).
  eexists. split; [reflexivity|]. simpl. split; [|done].
  rewrite dom_insert_L, Hdom. clear -Hst. set_solver.
Qed.

Lemma add_unlabeled_run trans p g :
  (∀ e, e ∈ trans → e.2 = None ∧ prepend1 e.1.1 p ∈ dom (nodes g) ∧
                     prepend1 e.1.2 p ∈ dom (nodes g)) →
  add_unlabeled trans p g
  = (Ok tt, set_edges (λ e, (e ++ (prefix_edge p <$> trans))%list) g).
Proof.
  intros Htrans.
  destruct (for_each_total (λ g', dom (nodes g') = dom (nodes g)) trans
              (λ t, match t with
                    | (from_state, to_state, None) =>
                        transitions_add (prepend1 from_state p)
                                        (prepend1 to_state p)
                    | (_, _, Some _) => raise ValueError
                    end)) with g as (g' & Hrun & _); [|done|].
  - intros [[f t] a] g1 He Hdom.
    destruct (Htrans _ He) as (Ha & Hf & Ht). simpl in *. subst a.
    unfold transitions_add, bind, get.
    rewrite !bool_decide_eq_true_2 by (by rewrite Hdom). simpl.
    eexists. split; [reflexivity|done].
  - change (add_unlabeled trans p g = (Ok (), g')) in Hrun.
    rewrite Hrun. by apply add_unlabeled_inv in Hrun as ->.
Qed.

Lemma add_labeled_run trans p g :
  (∀ e, e ∈ trans → ∃ a, e.2 = Some a ∧ a ∈ actions g ∧
                     prepend1 e.1.1 p ∈ dom (nodes g) ∧
                     prepend1 e.1.2 p ∈ dom (nodes g)) →
  add_labeled trans p g
  = (Ok tt, set_edges (λ e, (e ++ (prefix_edge p <$> trans))%list) g).
Proof.
  intros Htrans.
  destruct (for_each_total (λ g', dom (nodes g') = dom (nodes g) ∧
                                  actions g' = actions g) trans
              (λ t, match t with
                    | (from_state, to_state, Some act) =>
                        transitions_add_labeled (prepend1 from_state p)
                                                (prepend1 to_state p) act
                    | (_, _, None) => raise ValueError
                    end)) with g as (g' & Hrun & _); [|done|].
  - intros [[f t] a'] g1 He (Hdom & Hact).
    destruct (Htrans _ He) as (a & Ha & Hin & Hf & Ht). simpl in *. subst a'.
    unfold transitions_add_labeled, bind, get.
    rewrite !bool_decide_eq_true_2 by (by rewrite ?Hdom, ?Hact). simpl.
    eexists. split; [reflexivity|done].
  - change (add_labeled trans p g = (Ok (), g')) in Hrun.
    rewrite Hrun. by apply add_labeled_inv in Hrun as ->.
Qed.

(** ** [line_labeled_with] and [cycle_labeled_with] *)

(** A call of [line_labeled_with] that returns is a call of [tuple2fts]
    with the negation closure of the labels as propositions. *)
Lemma line_labeled_with_inv L m h ts h' :
  line_labeled_with L m h = (Ok ts, h') →
  ∃ AP, negation_closure L = Ok AP ∧
        tuple2fts (line_states (length L) m) (S0_iter []) AP (Some L) None
                  (line_transitions (length L) m) "fts" (Some "s") h
        = (Ok ts, h').
Proof.
  unfold line_labeled_with.
  intros (AP & h0 & Hap & H)%bind_inv.
  unfold lift_result in Hap. injection Hap as Hap <-.
  apply bind_inv in H as (ts' & h1 & Htup & H). injection H as <- <-.
  by exists AP.
Qed.

Lemma tuple2fts_labeling_nonempty S S0 AP L Act trans name p h ts h' :
  tuple2fts S S0 AP (Some L) Act trans name p h = (Ok ts, h') → L ≠ [].
Proof.
  unfold tuple2fts. intros (sl & h0 & Hsl & _)%bind_inv ->. done.
Qed.

Lemma pair_labels_with_states_strings S (ps : list string) :
  ps ≠ [] →
  pair_labels_with_states S (Some (OVal ∘ VStr <$> ps))
  = Ok (Some (Ok <$> zip S (OVal ∘ VStr <$> ps))).
Proof.
  destruct ps as [|p ps]; [done|]. intros _. rewrite fmap_cons.
  unfold pair_labels_with_states. simpl.
  destruct p as [|c1 [|c2 [|c3 p]]]; done.
Qed.

Lemma elem_of_zip {A B} (l1 : list A) (l2 : list B) x y :
  (x, y) ∈ zip l1 l2 → x ∈ l1 ∧ y ∈ l2.
Proof.
  intros H. split.
  - eapply elem_of_zip_l. done.
  - eapply elem_of_zip_r. done.
Qed.

(** On a non-empty list of strings [line_labeled_with] returns. *)
Lemma line_labeled_with_run (ps : list string) m h :
  ps ≠ [] →
  ∃ ts h', line_labeled_with (OVal ∘ VStr <$> ps) m h = (Ok ts, h').
Proof.
  intros Hps. unfold line_labeled_with.
  set (L := OVal ∘ VStr <$> ps).
  assert (Hclosure : negation_closure L
                     = Ok (unique ((ps ≫= λ p, [VStr p; VStr (negate p)])
                                   ++ [VTrue])%list)).
  { unfold negation_closure, L. by rewrite closure_items_strings. }
  unfold bind at 1, lift_result. rewrite Hclosure.
  set (AP := unique _).
  set (S := range m (m + Z.of_nat (length L))).
  set (trans := _ <$> zip _ _).
  assert (Hsl := pair_labels_with_states_strings S ps Hps). fold L in Hsl.
  assert (Hpop : ∃ g', populate (prepend_with S (Some "s")) [] AP
                         (Some (Ok <$> zip S L)) None trans (Some "s")
                         (empty_graph false) = (Ok tt, g')).
  { unfold populate.
    unfold bind at 1. rewrite states_add_from_run.
    unfold bind at 1. rewrite states_initial_ior_run by (intros ? []%elem_of_nil).
    unfold bind at 1, modify at 1.
    set (g3 := set_atomic_propositions _ _).
    assert (Hdom3 : dom (nodes g3) = list_to_set (prepend_with S (Some "s"))).
    { simpl. rewrite dom_add_states, dom_empty_L. by rewrite (left_id_L ∅ (∪)). }
    assert (Hap3 : atomic_propositions g3 = list_to_set AP).
    { simpl. unfold MathSet_ior. by rewrite (left_id_L ∅ (∪)). }
    assert (Hstate : ∀ v, v ∈ S → prepend1 v (Some "s") ∈ dom (nodes g3)).
    { intros v Hv. rewrite Hdom3, elem_of_list_to_set. simpl.
      apply list_elem_of_fmap. by exists v. }
    destruct (label_states_run (Ok <$> zip S L) (Some "s") g3) as (g4 & H4).
    { intros item ([st lab] & -> & Hin)%list_elem_of_fmap.
      apply elem_of_zip in Hin as (Hst & Hlab).
      apply list_elem_of_fmap in Hlab as (p & -> & Hp).
      exists st, (OVal (VStr p)), {[VStr p]}. repeat split; [by apply Hstate|].
      rewrite Hap3. apply singleton_subseteq_l, elem_of_list_to_set.
      unfold AP, unique. rewrite unique_from_elem_of. split; [|apply not_elem_of_nil].
      apply elem_of_app. left. apply list_elem_of_bind. exists p.
      split; [by left|done]. }
    unfold bind at 1. rewrite H4.
    apply label_states_frame in H4 as ((_ & _ & Hdom4 & _) & _).
    rewrite add_unlabeled_run; [by eexists|].
    intros e ([f t] & -> & Hin)%list_elem_of_fmap. simpl.
    apply elem_of_zip in Hin as (Hf & Ht).
    rewrite Hdom4. split; [done|].
    split; apply Hstate; unfold S; apply elem_of_range.
    - apply elem_of_range in Hf as (z & -> & Hz). exists z. split; [done|lia].
    - apply elem_of_range in Ht as (z & -> & Hz). exists z. split; [done|lia]. }
  destruct Hpop as (g' & Hpop).
  rewrite (bind_run _ _ _ _ _
             (tuple2fts_run S (S0_iter []) AP (Some L) None trans "fts"
                (Some "s") h _ g' Hsl Hpop)).
  by eexists _, _.
Qed.

Lemma line_labeled_with_universe L m h ts h' :
  line_labeled_with L m h = (Ok ts, h') →
  ∃ AP, negation_closure L = Ok AP ∧
        atomic_propositions (graph_of h' (containers ts)) = list_to_set AP.
Proof.
  intros (AP & Hap & Htup)%line_labeled_with_inv. exists AP. split; [done|].
  by apply tuple2fts_inv in Htup as (_ & _ & _ & -> & _).
Qed.

(** [cycle_labeled_with] is [line_labeled_with] followed by one more
    transition, from the last state to the first. *)
Lemma cycle_of_line L h ts h' :
  line_labeled_with L 0 h = (Ok ts, h') →
  cycle_labeled_with L h
  = (Ok ts,
     store_graph (containers ts)
       (set_edges
          (λ e, (e ++ [(VStr ("s" +:+ str (VInt (Z.of_nat (length L) - 1))),
                        VStr "s0", None)])%list)
          (graph_of h' (containers ts))) h').
Proof.
  intros Hline. unfold cycle_labeled_with. rewrite (bind_run _ _ _ _ _ Hline).
  apply line_labeled_with_inv in Hline as (AP & _ & Htup).
  assert (HL := tuple2fts_labeling_nonempty _ _ _ _ _ _ _ _ _ _ _ Htup).
  apply tuple2fts_inv in Htup as (_ & _ & _ & _ & _ & Hdom & _).
  assert (Hstate : ∀ z, 0 ≤ z < Z.of_nat (length L) →
            VStr ("s" +:+ str (VInt z)) ∈ dom (nodes (graph_of h' (containers ts)))).
  { intros z Hz. rewrite Hdom, elem_of_list_to_set. simpl.
    apply list_elem_of_fmap. exists (VInt z). split; [done|].
    apply elem_of_range. exists z. split; [done|lia]. }
  assert (0 < Z.of_nat (length L)) by (destruct L; [done|simpl; lia]).
  assert (Hadd : transitions_add
                   (VStr ("s" +:+ str (VInt (Z.of_nat (length L) - 1))))
                   (VStr "s0") (graph_of h' (containers ts))
                 = (Ok tt,
                    set_edges
                      (λ e, (e ++ [(VStr ("s" +:+ str (VInt (Z.of_nat (length L) - 1))),
                                    VStr "s0", None)])%list)
                      (graph_of h' (containers ts)))).
  { unfold transitions_add, bind, get.
    rewrite bool_decide_eq_true_2 by (apply Hstate; lia).
    rewrite bool_decide_eq_true_2 by (apply (Hstate 0); lia).
    reflexivity. }
  unfold bind. by rewrite (with_graph_run _ _ _ _ _ Hadd).
Qed.

Lemma line_labeled_with_ppq h :
  line_labeled_with [OVal (VStr "p"); OVal (VStr "p"); OVal (VStr "q")] 0 h
  = (Ok (FTS (next_id h) "fts" (fresh (dom (graphs h)))),
     Heap (<[fresh (dom (graphs h)) :=
               Graph (list_to_set [VStr "p"; VStr "!p"; VStr "q"; VStr "!q"; VTrue])
                 ∅
                 (<[VStr "s0" := Some {[VStr "p"]}]>
                    (<[VStr "s1" := Some {[VStr "p"]}]>
                       (<[VStr "s2" := Some {[VStr "q"]}]> ∅)))
                 ∅
                 [(VStr "s0", VStr "s1", None); (VStr "s1", VStr "s2", None)]
                 false]> (graphs h))
          (Pos.succ (next_id h))).
Proof.
  unfold line_labeled_with.
  set (L := [OVal (VStr "p"); OVal (VStr "p"); OVal (VStr "q")]).
  assert (Hc : negation_closure L
               = Ok [VStr "p"; VStr "!p"; VStr "q"; VStr "!q"; VTrue])
    by (vm_compute; reflexivity).
  unfold bind at 1, lift_result. rewrite Hc.
  set (S := range 0 _). set (trans := _ <$> zip _ _).
  set (AP := [VStr "p"; VStr "!p"; VStr "q"; VStr "!q"; VTrue]).
  set (g := Graph _ _ _ _ _ _).
  assert (Hsl : pair_labels_with_states S (Some L)
                = Ok (Some [Ok (VInt 0, OVal (VStr "p"));
                            Ok (VInt 1, OVal (VStr "p"));
                            Ok (VInt 2, OVal (VStr "q"))]))
    by (vm_compute; reflexivity).
  assert (Hpop : populate (prepend_with S (Some "s"))
                   (prepend_with (initial_list (S0_iter [])) (Some "s")) AP
                   (Some [Ok (VInt 0, OVal (VStr "p"));
                          Ok (VInt 1, OVal (VStr "p"));
                          Ok (VInt 2, OVal (VStr "q"))])
                   None trans (Some "s") (empty_graph false) = (Ok tt, g))
    by (vm_compute; reflexivity).
  by rewrite (bind_run _ _ _ _ _
                (tuple2fts_run S (S0_iter []) AP (Some L) None trans "fts"
                   (Some "s") h _ g Hsl Hpop)).
Qed.

(** C8. When [line_labeled_with(L)] returns, [cycle_labeled_with(L)]
    returns the same system with one more transition, from the last state
    ['s' + str(len(L) - 1)] to the first state ['s0'], and nothing else
    changed; the line has no initial state; when the line raises, so does
    the cycle.  On 'p', 'p', 'q' the cycle has the states 's0', 's1',
    's2' labeled {'p'}, {'p'}, {'q'}, exactly the transitions s0 to s1,
    s1 to s2 and s2 to s0, and no initial state. *)
Theorem cycle_labeled_with_closes_line :
  (∀ L h ts h',
     line_labeled_with L 0 h = (Ok ts, h') →
     cycle_labeled_with L h
     = (Ok ts,
        store_graph (containers ts)
          (set_edges
             (λ e, (e ++ [(VStr ("s" +:+ str (VInt (Z.of_nat (length L) - 1))),
                           VStr "s0", None)])%list)
             (graph_of h' (containers ts))) h') ∧
     initial (graph_of h' (containers ts)) = ∅) ∧
  (∀ L h e h',
     line_labeled_with L 0 h = (Raise e, h') →
     cycle_labeled_with L h = (Raise e, h')) ∧
  (∀ h, ∃ ts h',
     cycle_labeled_with [OVal (VStr "p"); OVal (VStr "p"); OVal (VStr "q")] h
     = (Ok ts, h') ∧
     let g := graph_of h' (containers ts) in
     dom (nodes g) = {[VStr "s0"; VStr "s1"; VStr "s2"]} ∧
     nodes g !! VStr "s0" = Some (Some {[VStr "p"]}) ∧
     nodes g !! VStr "s1" = Some (Some {[VStr "p"]}) ∧
     nodes g !! VStr "s2" = Some (Some {[VStr "q"]}) ∧
     edges g = [(VStr "s0", VStr "s1", None); (VStr "s1", VStr "s2", None);
                (VStr "s2", VStr "s0", None)] ∧
     initial g = ∅).
Proof.
  split; [|split].
  - intros L h ts h' Hline. split; [by apply cycle_of_line|].
    apply line_labeled_with_inv in Hline as (AP & _ & Htup).
    by apply tuple2fts_inv in Htup as (_ & _ & _ & _ & _ & _ & -> & _).
  - intros L h e h' Hline. unfold cycle_labeled_with.
    by rewrite (bind_raise _ _ _ _ _ Hline).
  - intros h. eexists _, _. split.
    + apply cycle_of_line, line_labeled_with_ppq.
    + simpl. rewrite graph_of_store. unfold graph_of. simpl.
      rewrite lookup_insert_eq. simpl.
      repeat split; vm_compute; reflexivity.
Qed.

Lemma cycle_labeled_with_closes_line_witness :
  let L := [OVal (VStr "p"); OVal (VStr "p"); OVal (VStr "q")] in
  let ts := FTS (next_id empty_heap) "fts" (fresh (dom (graphs empty_heap))) in
  ∃ h', line_labeled_with L 0 empty_heap = (Ok ts, h') ∧
        fst (cycle_labeled_with L empty_heap) = Ok ts ∧
        initial (graph_of h' (containers ts)) = ∅.
Proof.
  intros L ts. eexists. split; [apply line_labeled_with_ppq|].
  destruct (proj1 cycle_labeled_with_closes_line L empty_heap ts _
              (line_labeled_with_ppq empty_heap)) as [Hcycle Hinit].
  split; [by rewrite Hcycle|exact Hinit].
Defined.

Lemma negation_closure_strings_elem_of (ps : list string) :
  ∃ AP, negation_closure (OVal ∘ VStr <$> ps) = Ok AP ∧
        (∀ p, p ∈ ps → VStr p ∈ AP ∧ VStr (negate p) ∈ AP) ∧ VTrue ∈ AP.
Proof.
  unfold negation_closure. rewrite closure_items_strings.
  eexists. split; [reflexivity|]. unfold unique.
  split; [intros p Hp; split|]; rewrite unique_from_elem_of;
    (split; [|apply not_elem_of_nil]); rewrite elem_of_app.
  - left. apply list_elem_of_bind. exists p. split; [by left|done].
  - left. apply list_elem_of_bind. exists p. split; [by right; left|done].
  - right. by left.
Qed.

(** C10. When [line_labeled_with(L)] returns a system, and likewise when
    [cycle_labeled_with(L)] does, the atomic propositions of that system
    are the negation closure of [L].  On a non-empty list of strings
    [line_labeled_with] does return, and the propositions are exactly the
    labels, their negation toggles (the label without its exclamation
    mark when it starts with one, the label with an exclamation mark in
    front otherwise) and [True]: strictly more than the labels passed. *)
Theorem line_labeled_with_atomic_propositions (L : list pyobj) (m : Z) (h : heap) :
  (∀ ts h', line_labeled_with L m h = (Ok ts, h') →
     ∃ AP, negation_closure L = Ok AP ∧
           atomic_propositions (graph_of h' (containers ts)) = list_to_set AP) ∧
  (∀ ts h', cycle_labeled_with L h = (Ok ts, h') →
     ∃ AP, negation_closure L = Ok AP ∧
           atomic_propositions (graph_of h' (containers ts)) = list_to_set AP) ∧
  (∀ ps : list string, L = OVal ∘ VStr <$> ps → ps ≠ [] →
     ∃ ts h', line_labeled_with L m h = (Ok ts, h') ∧
       let A := atomic_propositions (graph_of h' (containers ts)) in
       (∀ p, p ∈ ps →
          VStr p ∈ A ∧
          (∀ q, p = "!" +:+ q → VStr q ∈ A) ∧
          ((∀ q, p ≠ "!" +:+ q) → VStr ("!" +:+ p) ∈ A)) ∧
       VTrue ∈ A ∧
       (∀ x, x ∈ A ↔
             x = VTrue ∨
             ∃ p, p ∈ ps ∧
                  (x = VStr p ∨
                   (∃ q, p = "!" +:+ q ∧ x = VStr q) ∨
                   ((∀ q, p ≠ "!" +:+ q) ∧ x = VStr ("!" +:+ p)))) ∧
       list_to_set (VStr <$> ps) ⊂ A).
Proof.
  split; [|split].
  - intros ts h'. apply line_labeled_with_universe.
  - intros ts h' Hcycle. unfold cycle_labeled_with in Hcycle.
    apply bind_inv in Hcycle as (ts1 & h1 & Hline & Hrest).
    apply bind_inv in Hrest as ([] & h2 & Hadd & Hret). injection Hret as <- <-.
    apply line_labeled_with_universe in Hline as (AP & Hap & Huniv).
    exists AP. split; [done|]. rewrite <- Huniv.
    unfold with_graph in Hadd.
    destruct (transitions_add _ _ _) as [[[]|e] g'] eqn:Hg; [|done].
    injection Hadd as <-. rewrite graph_of_store.
    by apply transitions_add_inv in Hg as (-> & _).
  - intros ps -> Hps.
    destruct (line_labeled_with_run ps m h Hps) as (ts & h' & Hline).
    exists ts, h'. split; [done|].
    apply line_labeled_with_universe in Hline as (AP & Hap & ->).
    destruct (negation_closure_strings_elem_of ps) as (AP' & Hap' & Hin & Htrue).
    rewrite Hap in Hap'. injection Hap' as <-.
    cbv zeta. split; [|split; [|split]].
    + intros p Hp. rewrite !elem_of_list_to_set.
      destruct (Hin p Hp) as [Hp1 Hp2]. split; [done|]. split.
      * intros q ->. apply elem_of_list_to_set. exact Hp2.
      * intros Hq. by rewrite <- (negate_prepends p Hq).
    + by apply elem_of_list_to_set.
    + intros x. rewrite elem_of_list_to_set.
      apply (negation_closure_elem_of_toggles ps AP x Hap).
    + split.
      * intros x (v & -> & Hv)%elem_of_list_to_set%list_elem_of_fmap.
        apply elem_of_list_to_set. by apply Hin.
      * intros Hsub. specialize (Hsub VTrue).
        rewrite !elem_of_list_to_set in Hsub.
        apply Hsub in Htrue. by apply list_elem_of_fmap in Htrue as (? & ? & _).
Qed.

Lemma line_labeled_with_atomic_propositions_witness :
  let ps := ["p"; "!q"] in
  ∃ ts h', line_labeled_with (OVal ∘ VStr <$> ps) 0 empty_heap = (Ok ts, h') ∧
           VTrue ∈ atomic_propositions (graph_of h' (containers ts)) ∧
           VStr "!p" ∈ atomic_propositions (graph_of h' (containers ts)) ∧
           VStr "q" ∈ atomic_propositions (graph_of h' (containers ts)).
Proof.
  intros ps.
  destruct (proj2 (proj2 (line_labeled_with_atomic_propositions
                            (OVal ∘ VStr <$> ps) 0 empty_heap))
              ps eq_refl ltac:(discriminate))
    as (ts & h' & Hline & Hin & Htrue & _).
  exists ts, h'. split; [exact Hline|]. split; [exact Htrue|]. split.
  - apply (Hin "p"); [by left|]. intros q. discriminate.
  - by apply (Hin "!q"); [right; left|].
Defined.

(** ** Merging *)

Lemma well_formed_labels g s l :
  well_formed g = true → nodes g !! s = Some (Some l) →
  l ⊆ atomic_propositions g.
Proof.
  unfold well_formed. intros [[Hl _]%andb_prop _]%andb_prop Hs.
  rewrite forallb_forall in Hl.
  apply elem_of_map_to_list, list_elem_of_In in Hs.
  by apply Hl, bool_decide_eq_true in Hs.
Qed.

Lemma well_formed_initial g :
  well_formed g = true → initial g ⊆ dom (nodes g).
Proof.
  unfold well_formed. intros [[_ Hi]%andb_prop _]%andb_prop.
  by apply bool_decide_eq_true in Hi.
Qed.

Lemma well_formed_edges g f t a :
  well_formed g = true → (f, t, a) ∈ edges g →
  f ∈ dom (nodes g) ∧ t ∈ dom (nodes g) ∧
  ∀ x, a = Some x → x ∈ actions g.
Proof.
  unfold well_formed. intros [_ He]%andb_prop Hin.
  rewrite forallb_forall in He. apply list_elem_of_In, He in Hin.
  apply andb_prop in Hin as [[Hf Ht]%andb_prop Ha].
  apply bool_decide_eq_true in Hf, Ht. repeat split; [done..|].
  intros x ->. by apply bool_decide_eq_true in Ha.
Qed.

Lemma merge_states_run found g :
  (∀ s l, (s, Some l) ∈ found → l ⊆ atomic_propositions g) →
  merge_states found g = (Ok tt, set_nodes (λ n, foldl merge_node n found) g).
Proof.
  revert g. induction found as [|[s lab] found IH]; intros g Hlab.
  - by destruct g.
  - unfold merge_states in *. simpl.
    unfold bind at 1. unfold bind at 1, states_contains.
    assert (Hstep : ∃ g1,
      ((if negb (bool_decide (s ∈ dom (nodes g))) then states_add s else ret tt) ;;
       match lab with
       | Some ap => states_label s ap
       | None => ret tt
       end) g = (Ok tt, g1) ∧
      g1 = set_nodes (λ n, merge_node n (s, lab)) g).
    { eexists. split; [|reflexivity].
      unfold bind, set_nodes, merge_node. simpl.
      destruct (nodes g !! s) as [old|] eqn:Hs.
      - rewrite bool_decide_eq_true_2 by (apply elem_of_dom; eauto). simpl.
        destruct lab as [ap|]; [|by destruct g].
        unfold states_label, bind, get.
        rewrite bool_decide_eq_true_2 by (apply elem_of_dom; eauto).
        rewrite bool_decide_eq_true_2 by (apply (Hlab s); left). done.
      - rewrite bool_decide_eq_false_2 by (by apply not_elem_of_dom). simpl.
        unfold states_add, modify, set_nodes. rewrite Hs.
        destruct lab as [ap|]; [|done].
        unfold states_label, bind, get. simpl.
        rewrite bool_decide_eq_true_2
          by (apply elem_of_dom; rewrite lookup_insert_eq; eauto).
        rewrite bool_decide_eq_true_2 by (apply (Hlab s); left). done. }
    destruct Hstep as (g1 & -> & ->). rewrite IH.
    + by destruct g.
    + intros s' l Hin. apply (Hlab s' l). by right.
Qed.

(** The label dict of a state after the loop: the one of the source when
    the source has a label for the state, else the one it had. *)
Lemma merge_nodes_lookup (found : list (pyval * label_dict))
    (n : gmap pyval label_dict) s :
  NoDup found.*1 →
  foldl merge_node n found !! s
  = match (list_to_map found : gmap pyval label_dict) !! s with
    | Some (Some l) => Some (Some l)
    | Some None => Some (default None (n !! s))
    | None => n !! s
    end.
Proof.
  revert n. induction found as [|[k lab] found IH]; intros n Hnd; [done|].
  rewrite fmap_cons in Hnd. apply NoDup_cons in Hnd as [Hk Hnd].
  simpl. rewrite IH by done.
  destruct (decide (s = k)) as [->|Hne].
  - rewrite lookup_insert_eq.
    rewrite (not_elem_of_list_to_map_1 found k) by done.
    unfold merge_node; simpl. destruct lab as [ap|].
    + by rewrite lookup_insert_eq.
    + destruct (n !! k) as [old|] eqn:Hold; [by rewrite Hold|].
      by rewrite lookup_insert_eq.
  - rewrite lookup_insert_ne by done.
    assert (Hn : merge_node n (k, lab) !! s = n !! s).
    { unfold merge_node; simpl. destruct lab, (n !! k);
        rewrite ?lookup_insert_ne; done. }
    by rewrite Hn.
Qed.

Lemma merged_nodes_lookup gt gs s :
  nodes (merged gt gs) !! s
  = match nodes gs !! s with
    | Some (Some l) => Some (Some l)
    | Some None => Some (default None (nodes gt !! s))
    | None => nodes gt !! s
    end.
Proof.
  simpl. rewrite merge_nodes_lookup by apply NoDup_fst_map_to_list.
  by rewrite list_to_map_to_list.
Qed.

Lemma merged_nodes_dom gt gs :
  dom (nodes (merged gt gs)) = dom (nodes gt) ∪ dom (nodes gs).
Proof.
  apply set_eq. intros s. rewrite elem_of_union, !elem_of_dom.
  rewrite merged_nodes_lookup. unfold is_Some.
  destruct (nodes gs !! s) as [[l|]|], (nodes gt !! s) as [old|];
    naive_solver.
Qed.

Lemma merge_transitions_run found g :
  (∀ f t a, (f, t, a) ∈ found →
     f ∈ dom (nodes g) ∧ t ∈ dom (nodes g) ∧ ∀ x, a = Some x → x ∈ actions g) →
  merge_transitions found g
  = (Ok tt, set_edges (λ e, (e ++ found)%list) g).
Proof.
  revert g. induction found as [|[[f t] a] found IH]; intros g Hfound.
  - destruct g. unfold set_edges; simpl. by rewrite app_nil_r.
  - unfold merge_transitions in *. simpl. unfold bind at 1.
    destruct (Hfound f t a) as (Hf & Ht & Ha); [by left|].
    assert (Hstep :
      match a with
      | Some v => transitions_add_labeled f t v
      | None => transitions_add f t
      end g = (Ok tt, set_edges (λ e, (e ++ [(f, t, a)])%list) g)).
    { destruct a as [x|].
      - unfold transitions_add_labeled, bind, get.
        rewrite !bool_decide_eq_true_2 by auto. done.
      - unfold transitions_add, bind, get.
        rewrite !bool_decide_eq_true_2 by auto. done. }
    rewrite Hstep, IH.
    + destruct g. unfold set_edges; simpl. by rewrite <- app_assoc.
    + intros f' t' a' Hin. apply (Hfound f' t' a'). by right.
Qed.

(** A field that a write leaves as it was reads the same through every
    reference, also through one to the containers written. *)
Lemma graph_of_store_field {A} (proj : graph → A) rs ro g h :
  proj g = proj (graph_of h rs) →
  proj (graph_of (store_graph rs g h) ro) = proj (graph_of h ro).
Proof.
  intros Hg. destruct (decide (rs = ro)) as [<-|Hne].
  - by rewrite graph_of_store.
  - by rewrite graph_of_store_ne.
Qed.

Lemma dom_foldl_merge_node found (n : gmap pyval label_dict) :
  dom (foldl merge_node n found) = dom n ∪ list_to_set found.*1.
Proof.
  revert n. induction found as [|[k lab] found IH]; intros n; simpl.
  - set_solver.
  - rewrite IH. unfold merge_node; simpl.
    destruct lab, (n !! k) eqn:Hk; rewrite ?dom_insert_L;
      try (apply elem_of_dom_2 in Hk); set_solver.
Qed.

(** [self + other] on a well-formed [other]: the containers of [self]
    become the merge, and a new instance over them is returned. *)
Lemma add_run self other h :
  well_formed (graph_of h (containers other)) = true →
  __add__ self (OpFTS other) h
  = (Ok (FTS (next_id h) (name self) (containers self)),
     Heap (<[containers self :=
               merged (graph_of h (containers self))
                      (graph_of h (containers other))]> (graphs h))
          (Pos.succ (next_id h))).
Proof.
  intros Hwf. unfold __add__.
  set (rs := containers self). set (ro := containers other).
  set (gt := graph_of h rs). set (gs := graph_of h ro). fold gs in Hwf.
  (* atomic propositions *)
  unfold bind at 1, read at 1. fold gs.
  unfold bind at 1, with_graph at 1, modify at 1. fold gt.
  set (g1 := set_atomic_propositions _ gt).
  (* actions *)
  unfold bind at 1, read at 1.
  unfold bind at 1, with_graph at 1, modify at 1.
  rewrite graph_of_store, store_store.
  rewrite (graph_of_store_field actions rs ro g1 h eq_refl). fold gs.
  set (g2 := set_actions _ g1).
  (* states and labels *)
  unfold bind at 1, read at 1. unfold states_find.
  rewrite (graph_of_store_field nodes rs ro g2 h eq_refl). fold gs.
  unfold bind at 1.
  rewrite (with_graph_run rs _ _ (Ok tt)
             (set_nodes (λ n, foldl merge_node n (map_to_list (nodes gs))) g2)).
  2:{ rewrite graph_of_store. apply merge_states_run.
      intros s l Hin%elem_of_map_to_list. simpl. unfold MathSet_ior.
      apply (well_formed_labels gs s l Hwf) in Hin. set_solver. }
  rewrite store_store. set (g3 := set_nodes _ g2).
  (* initial states *)
  unfold bind at 1, read at 1.
  rewrite (graph_of_store_field initial rs ro g3 h eq_refl). fold gs.
  unfold bind at 1.
  rewrite (with_graph_run rs _ _ (Ok tt)
             (set_initial (λ i, i ∪ list_to_set (elements (initial gs))) g3)).
  2:{ rewrite graph_of_store. apply states_initial_ior_run.
      intros s Hs%elem_of_elements. simpl.
      rewrite dom_foldl_merge_node, elem_of_union, elem_of_list_to_set.
      right. apply (well_formed_initial gs Hwf), elem_of_dom in Hs as [lab Hs].
      apply list_elem_of_fmap. exists (s, lab). split; [done|].
      by apply elem_of_map_to_list. }
  rewrite store_store. set (g4 := set_initial _ g3).
  (* transitions *)
  unfold bind at 1, read at 1. unfold transitions_find.
  rewrite (graph_of_store_field edges rs ro g4 h eq_refl). fold gs.
  unfold bind at 1.
  rewrite (with_graph_run rs _ _ (Ok tt)
             (set_edges (λ e, (e ++ edges gs)%list) g4)).
  2:{ rewrite graph_of_store. apply merge_transitions_run.
      intros f t a Hin. simpl.
      destruct (well_formed_edges gs f t a Hwf Hin) as (Hf & Ht & Ha).
      assert (Hdom : ∀ s, s ∈ dom (nodes gs) →
                s ∈ dom (foldl merge_node (nodes gt) (map_to_list (nodes gs)))).
      { intros s [lab Hs]%elem_of_dom.
        rewrite dom_foldl_merge_node, elem_of_union, elem_of_list_to_set.
        right. apply list_elem_of_fmap. exists (s, lab). split; [done|].
        by apply elem_of_map_to_list. }
      repeat split; [by apply Hdom..|].
      intros x Hx. unfold MathSet_ior. apply elem_of_union. right. by apply Ha. }
  rewrite store_store.
  unfold copy_copy, store_graph. simpl. do 3 f_equal.
  unfold merged, g4, g3, g2, g1, set_edges, set_initial, set_nodes, set_actions,
    set_atomic_propositions, MathSet_ior. simpl.
  by rewrite list_to_set_elements_L.
Qed.

Lemma graph_of_heap_insert r g m n : graph_of (Heap (<[r := g]> m) n) r = g.
Proof. unfold graph_of; simpl. by rewrite lookup_insert_eq. Qed.

(** C3, as stated, fails: the label of a state is a set of propositions
    that can be empty, and a source state labeled with the empty set has
    an empty label; yet the merge overwrites the label the target gives
    that state with it.  The test [if label:] of the loop is on the label
    dict, which holds the entry ['ap'] also when the set is empty. *)
Lemma add_empty_label_counterexample :
  let gt := Graph {[VStr "p"]} ∅ {[VStr "s" := Some {[VStr "p"]}]} ∅ [] false in
  let gs := Graph ∅ ∅ {[VStr "s" := Some ∅]} ∅ [] false in
  let h := Heap (<[1%positive := gt]> {[2%positive := gs]}) 3 in
  well_formed gs = true ∧
  nodes (graph_of h 1) !! VStr "s" = Some (Some {[VStr "p"]}) ∧
  nodes (graph_of h 2) !! VStr "s" = Some (Some ∅) ∧
  ∃ r h', __add__ (FTS 1 "a" 1) (OpFTS (FTS 2 "b" 2)) h = (Ok r, h') ∧
          nodes (graph_of h' 1) !! VStr "s" = Some (Some ∅) ∧
          nodes (graph_of h' 1) !! VStr "s" ≠ nodes (graph_of h 1) !! VStr "s".
Proof.
  intros gt gs h.
  assert (Hwf : well_formed gs = true) by (vm_compute; reflexivity).
  assert (Ht : nodes (graph_of h 1) !! VStr "s" = Some (Some {[VStr "p"]}))
    by (vm_compute; reflexivity).
  assert (Hs : nodes (graph_of h 2) !! VStr "s" = Some (Some ∅))
    by (vm_compute; reflexivity).
  split; [done|]. split; [done|]. split; [done|].
  eexists _, _. split; [exact (add_run (FTS 1 "a" 1) (FTS 2 "b" 2) h Hwf)|].
  cbn [containers]. rewrite graph_of_heap_insert, merged_nodes_lookup, Hs, Ht.
  split; [done|]. by intros [= Hlab].
Qed.

(** C3, amended. Merging a well-formed source into a target returns, and
    leaves a target whose states are those of both; the label of a state
    is overwritten with the source's exactly when the source labels the
    state, that is when the source's label dict for it is not empty (the
    test [if label:] of the loop), also when the label is the empty set of
    propositions; otherwise it is the one the target had (none, for a
    state added without a label).  So when both systems label a state,
    the merged system carries the label of the source. *)
Theorem add_states_and_labels (self other : FiniteTransitionSystem) (h : heap) :
  well_formed (graph_of h (containers other)) = true →
  ∃ r h',
    __add__ self (OpFTS other) h = (Ok r, h') ∧
    let gt := graph_of h (containers self) in
    let gs := graph_of h (containers other) in
    let g' := graph_of h' (containers self) in
    dom (nodes g') = dom (nodes gt) ∪ dom (nodes gs) ∧
    (∀ s, nodes g' !! s
          = match nodes gs !! s with
            | Some (Some l) => Some (Some l)
            | Some None => Some (default None (nodes gt !! s))
            | None => nodes gt !! s
            end) ∧
    (∀ s lt ls, nodes gt !! s = Some lt → nodes gs !! s = Some (Some ls) →
                nodes g' !! s = Some (Some ls)).
Proof.
  intros Hwf. eexists _, _. split; [by apply add_run|].
  cbv zeta. rewrite graph_of_heap_insert.
  split; [apply merged_nodes_dom|]. split.
  - intros s. apply merged_nodes_lookup.
  - intros s lt ls _ Hs. by rewrite merged_nodes_lookup, Hs.
Qed.

Lemma add_states_and_labels_witness :
  let gt := Graph {[VStr "p"]} ∅ {[VStr "s" := Some {[VStr "p"]}]} ∅ [] false in
  let gs := Graph {[VStr "q"]} ∅
              (<[VStr "s" := Some {[VStr "q"]}]> {[VStr "t" := None]})
              ∅ [] false in
  let h := Heap (<[1%positive := gt]> {[2%positive := gs]}) 3 in
  well_formed gs = true ∧
  ∃ r h', __add__ (FTS 1 "a" 1) (OpFTS (FTS 2 "b" 2)) h = (Ok r, h') ∧
          nodes (graph_of h' 1) !! VStr "s" = Some (Some {[VStr "q"]}).
Proof.
  intros gt gs h. split; [vm_compute; reflexivity|].
  destruct (add_states_and_labels (FTS 1 "a" 1) (FTS 2 "b" 2) h)
    as (r & h' & Hadd & _ & _ & Hlabel); [vm_compute; reflexivity|].
  exists r, h'. split; [exact Hadd|].
  apply (Hlabel (VStr "s") (Some {[VStr "p"]}) {[VStr "q"]});
    vm_compute; reflexivity.
Defined.



(** * Further properties *)

(** ** More on [negate] and [negation_closure] *)

Lemma negate_negate x : (∀ y, x ≠ "!!" +:+ y) → negate (negate x) = x.
Proof.
  intros Hx. destruct x as [|c x]; [done|].
  destruct (decide (c = "!"%char)) as [->|Hc].
  - rewrite negate_bang. destruct x as [|d x]; [done|].
    destruct (decide (d = "!"%char)) as [->|Hd].
    + by destruct (Hx x).
    + by rewrite negate_not_bang.
  - rewrite negate_not_bang by done. by rewrite negate_bang.
Qed.

(** X1. [negate] undoes itself on every string but those that start with
    two exclamation marks: there it strips one mark and then the other. *)
Theorem negate_involutive_iff (x : string) :
  negate (negate x) = x ↔ ¬ ∃ y, x = "!!" +:+ y.
Proof.
  split.
  - intros Hx [y ->]. change (negate (negate ("!!" +:+ y))) with y in Hx.
    apply (f_equal String.length) in Hx. cbv [String.app] in Hx.
    simpl in Hx. lia.
  - intros Hn. apply negate_negate. intros y ->. apply Hn. by exists y.
Qed.

Lemma elem_of_negation_closure (ps : list string) r x :
  negation_closure (OVal ∘ VStr <$> ps) = Ok r →
  x ∈ r ↔ x = VTrue ∨ ∃ p, p ∈ ps ∧ (x = VStr p ∨ x = VStr (negate p)).
Proof.
  unfold negation_closure. rewrite closure_items_strings. intros [= <-].
  unfold unique. rewrite unique_from_elem_of.
  rewrite elem_of_app, list_elem_of_bind, list_elem_of_singleton.
  split.
  - intros [[(p & Hx & Hp)| ->] _]; [|by left].
    right. exists p. split; [done|].
    rewrite !elem_of_cons, elem_of_nil in Hx. tauto.
  - intros [->|(p & Hp & Hx)]; (split; [|apply not_elem_of_nil]); [by right|].
    left. exists p. split; [|done].
    rewrite !elem_of_cons. tauto.
Qed.

(** X2. When no proposition passed starts with two exclamation marks, the
    strings of the negation closure are closed under [negate]: with every
    string the closure holds its toggle.  Without the condition this
    fails: the closure of ['!!p'] holds '!p' but not 'p'. *)
Theorem negation_closure_closed_under_negate :
  (∀ (ps : list string) r,
     (∀ p y, p ∈ ps → p ≠ "!!" +:+ y) →
     negation_closure (OVal ∘ VStr <$> ps) = Ok r →
     ∀ s, VStr s ∈ r → VStr (negate s) ∈ r) ∧
  (∃ r, negation_closure [OVal (VStr "!!p")] = Ok r ∧
        VStr "!p" ∈ r ∧ VStr (negate "!p") ∉ r).
Proof.
  split.
  - intros ps r Hps Hr s.
    rewrite !(elem_of_negation_closure ps r _ Hr).
    intros [?|(p & Hp & [Hs|Hs])]; [done|right; exists p; split; [done|]..].
    + right. congruence.
    + left. injection Hs as ->. f_equal.
      apply negate_negate. intros y Hy. by apply (Hps p y).
  - eexists. split; [reflexivity|]. split.
    + apply (bool_decide_unpack _). by vm_compute.
    + apply (bool_decide_unpack _). by vm_compute.
Qed.

Lemma negation_closure_closed_under_negate_witness :
  ∃ r, negation_closure (OVal ∘ VStr <$> ["p"; "!q"]) = Ok r ∧
       (VStr "!q" ∈ r → VStr (negate "!q") ∈ r).
Proof.
  eexists. split; [reflexivity|].
  apply (proj1 negation_closure_closed_under_negate ["p"; "!q"]); [|reflexivity].
  intros p y Hp. rewrite !elem_of_cons, elem_of_nil in Hp.
  destruct Hp as [->|[->|[]]]; discriminate.
Defined.

Lemma closure_items_Ok L :
  Forall (λ x, is_str x = true) L → ∃ ap, closure_items L = Ok ap.
Proof.
  induction 1 as [|x L Hx _ [ap IH]]; [by eexists|].
  destruct x as [[| s | |]| |]; try discriminate. simpl. rewrite IH. by eexists.
Qed.

Lemma closure_items_Raise L :
  Exists (λ x, is_str x = false) L → closure_items L = Raise AttributeError.
Proof.
  induction 1 as [x L Hx|x L _ IH].
  - by destruct x as [[| s | |]| |].
  - destruct x as [[| s | |]| |]; try done. simpl. by rewrite IH.
Qed.

(** X3. [negation_closure] returns exactly on the lists all of whose
    entries are strings; an entry that is not a string (a set of
    propositions, a number, [True]) makes it raise [AttributeError], and it
    raises nothing else.  So the closure cannot be closed again: what it
    returns holds [True]. *)
Theorem negation_closure_outcome (L : list pyobj) :
  ((∃ r, negation_closure L = Ok r) ↔ Forall (λ x, is_str x = true) L) ∧
  (negation_closure L = Raise AttributeError
   ↔ Exists (λ x, is_str x = false) L) ∧
  (∀ e, negation_closure L = Raise e → e = AttributeError) ∧
  (∀ r, negation_closure L = Ok r →
        negation_closure (OVal <$> r) = Raise AttributeError).
Proof.
  assert (Hdec : Forall (λ x, is_str x = true) L
                 ∨ Exists (λ x, is_str x = false) L).
  { induction L as [|x L [IH|IH]]; [by left| |by right; right].
    destruct (is_str x) eqn:Hx; [left; by constructor|right; by left]. }
  assert (Hok : Forall (λ x, is_str x = true) L → ∃ r, negation_closure L = Ok r).
  { intros [ap Hap]%closure_items_Ok. unfold negation_closure.
    rewrite Hap. by eexists. }
  assert (Hraise : Exists (λ x, is_str x = false) L →
                   negation_closure L = Raise AttributeError).
  { intros Hex%closure_items_Raise. unfold negation_closure. by rewrite Hex. }
  split; [|split; [|split]].
  - split; [|done]. intros [r Hr].
    destruct Hdec as [|Hex%Hraise]; [done|congruence].
  - split; [|done]. intros Hr.
    destruct Hdec as [[r Hr']%Hok|]; [congruence|done].
  - intros e He. destruct Hdec as [[r Hr]%Hok|Hex%Hraise]; congruence.
  - intros r Hr. unfold negation_closure at 1.
    rewrite closure_items_Raise; [done|].
    apply Exists_exists. exists (OVal VTrue). split; [|done].
    apply list_elem_of_fmap. exists VTrue. split; [done|].
    unfold negation_closure in Hr.
    destruct (closure_items L) as [ap|]; [|done]. injection Hr as <-.
    unfold unique. rewrite unique_from_elem_of, elem_of_app, list_elem_of_singleton.
    split; [by right|apply not_elem_of_nil].
Qed.

(** ** The invariants of the data model *)

Lemma well_formed_intro g :
  (∀ s l, nodes g !! s = Some (Some l) → l ⊆ atomic_propositions g) →
  initial g ⊆ dom (nodes g) →
  (∀ f t a, (f, t, a) ∈ edges g →
     f ∈ dom (nodes g) ∧ t ∈ dom (nodes g) ∧ ∀ x, a = Some x → x ∈ actions g) →
  well_formed g = true.
Proof.
  intros Hl Hi He. unfold well_formed.
  apply andb_true_intro; split; [apply andb_true_intro; split|].
  - apply forallb_forall. intros [s lab] Hin%list_elem_of_In%elem_of_map_to_list.
    apply bool_decide_eq_true. destruct lab as [l|]; simpl; [eauto|set_solver].
  - by apply bool_decide_eq_true.
  - apply forallb_forall. intros [[f t] a] Hin%list_elem_of_In.
    destruct (He f t a Hin) as (Hf & Ht & Ha).
    rewrite !bool_decide_eq_true_2 by done. simpl.
    destruct a as [x|]; [|done]. apply bool_decide_eq_true. eauto.
Qed.

(** A step that only adds to the universes and the states, labels states
    inside the propositions and adds edges between states keeps the
    invariants. *)
Lemma well_formed_step g g' :
  well_formed g = true →
  atomic_propositions g ⊆ atomic_propositions g' →
  actions g ⊆ actions g' →
  dom (nodes g) ⊆ dom (nodes g') →
  (∀ s l, nodes g' !! s = Some (Some l) →
     nodes g !! s = Some (Some l) ∨ l ⊆ atomic_propositions g') →
  initial g' ⊆ initial g ∪ dom (nodes g') →
  (∀ f t a, (f, t, a) ∈ edges g' →
     (f, t, a) ∈ edges g ∨
     (f ∈ dom (nodes g') ∧ t ∈ dom (nodes g') ∧ ∀ x, a = Some x → x ∈ actions g')) →
  well_formed g' = true.
Proof.
  intros Hwf Hap Hact Hdom Hlab Hini Hed. apply well_formed_intro.
  - intros s l [Hs|Hs]%Hlab; [|done].
    pose proof (well_formed_labels g s l Hwf Hs). set_solver.
  - pose proof (well_formed_initial g Hwf). set_solver.
  - intros f t a [Hin|Hin]%Hed; [|done].
    destruct (well_formed_edges g f t a Hwf Hin) as (Hf & Ht & Ha).
    split; [set_solver|]. split; [set_solver|]. intros x Hx. set_solver.
Qed.

Lemma keeps_ret {St A} (P : St → Prop) (a : A) : keeps P (ret a).
Proof. intros s r s' HP [= _ <-]. done. Qed.

Lemma keeps_raise {St A} (P : St → Prop) e : keeps P (raise e : M St A).
Proof. intros s r s' HP [= _ <-]. done. Qed.

Lemma keeps_lift_result {St A} (P : St → Prop) (x : result A) :
  keeps P (lift_result x : M St A).
Proof. intros s r s' HP [= _ <-]. done. Qed.

Lemma keeps_get {St} (P : St → Prop) : keeps P (get : M St St).
Proof. intros s r s' HP [= _ <-]. done. Qed.

Lemma keeps_modify {St} (P : St → Prop) (f : St → St) :
  (∀ s, P s → P (f s)) → keeps P (modify f).
Proof. intros Hf s r s' HP [= _ <-]. auto. Qed.

Lemma keeps_bind {St A B} (P : St → Prop) (m : M St A) (k : A → M St B) :
  keeps P m → (∀ a, keeps P (k a)) → keeps P (bind m k).
Proof.
  intros Hm Hk s r s' HP. unfold bind.
  destruct (m s) as [[a|e] s1] eqn:Hms.
  - intros Hka. exact (Hk a s1 r s' (Hm s _ s1 HP Hms) Hka).
  - intros [= _ <-]. exact (Hm s _ s1 HP Hms).
Qed.

Lemma keeps_for_each {St A} (P : St → Prop) (l : list A) (body : A → M St unit) :
  (∀ x, keeps P (body x)) → keeps P (for_each l body).
Proof.
  intros Hbody. induction l as [|x l IH]; simpl.
  - apply keeps_ret.
  - apply keeps_bind; [apply Hbody|intros _; apply IH].
Qed.

Lemma well_formed_empty_graph b : well_formed (empty_graph b) = true.
Proof. done. Qed.

Lemma well_formed_graph_of h r :
  heap_well_formed h → well_formed (graph_of h r) = true.
Proof.
  intros Hh. unfold graph_of. destruct (graphs h !! r) as [g|] eqn:Hr; simpl.
  - by apply (Hh r).
  - done.
Qed.

Lemma keeps_with_graph {A} r (m : M graph A) :
  keeps (λ g, well_formed g = true) m → keeps heap_well_formed (with_graph r m).
Proof.
  intros Hm h res h' Hh. unfold with_graph.
  destruct (m (graph_of h r)) as [res' g'] eqn:Hrun. intros [= _ <-].
  intros r0 g0. unfold store_graph; simpl.
  destruct (decide (r0 = r)) as [->|Hne].
  - rewrite lookup_insert_eq. intros [= <-].
    exact (Hm _ _ _ (well_formed_graph_of h r Hh) Hrun).
  - rewrite lookup_insert_ne by done. apply Hh.
Qed.

Lemma keeps_read (P : heap → Prop) r : keeps P (read r).
Proof. intros s res s' HP [= _ <-]. done. Qed.


Lemma keeps_copy_copy self : keeps heap_well_formed (copy_copy self).
Proof. intros h res h' Hh [= _ <-]. exact Hh. Qed.

(** *** The operations of the graph layer *)

Lemma keeps_states_add s : keeps (λ g, well_formed g = true) (states_add s).
Proof.
  apply keeps_modify. intros g Hwf.
  apply (well_formed_step g); simpl; [done|done|done| | |set_solver|tauto].
  - destruct (nodes g !! s); [done|]. rewrite dom_insert. set_solver.
  - intros s' l. destruct (nodes g !! s) eqn:Hs; [tauto|].
    destruct (decide (s' = s)) as [->|Hne].
    + by rewrite lookup_insert_eq.
    + rewrite lookup_insert_ne by done. tauto.
Qed.

Lemma keeps_states_label s l : keeps (λ g, well_formed g = true) (states_label s l).
Proof.
  intros g r g' Hwf. unfold states_label, bind, get, modify, raise.
  case_bool_decide as Hs; [|by intros [= _ <-]].
  case_bool_decide as Hl; [|by intros [= _ <-]].
  intros [= _ <-].
  apply (well_formed_step g); simpl; [done|done|done| | |set_solver|tauto].
  - rewrite dom_insert. set_solver.
  - intros s' l'. destruct (decide (s' = s)) as [->|Hne].
    + rewrite lookup_insert_eq. intros [= <-]. by right.
    + rewrite lookup_insert_ne by done. tauto.
Qed.

Lemma keeps_states_label_obj s lab :
  keeps (λ g, well_formed g = true) (states_label_obj s lab).
Proof.
  destruct lab; simpl; [apply keeps_raise|apply keeps_states_label|apply keeps_raise].
Qed.

Lemma keeps_states_initial_ior ids :
  keeps (λ g, well_formed g = true) (states_initial_ior ids).
Proof.
  apply keeps_for_each. intros s g r g' Hwf. unfold bind, get, modify, raise.
  case_bool_decide as Hs; [|by intros [= _ <-]].
  intros [= _ <-].
  apply (well_formed_step g); simpl; [done|done|done|done|tauto| |tauto].
  set_solver.
Qed.

Lemma keeps_transitions_add f t :
  keeps (λ g, well_formed g = true) (transitions_add f t).
Proof.
  intros g r g' Hwf. unfold transitions_add, bind, get, modify, raise.
  destruct (bool_decide (f ∈ _)) eqn:Hf; simpl; [|by intros [= _ <-]].
  destruct (bool_decide (t ∈ _)) eqn:Ht; simpl; [|by intros [= _ <-]].
  apply bool_decide_eq_true in Hf, Ht.
  intros [= _ <-].
  apply (well_formed_step g); simpl; [done|done|done|done|tauto|set_solver|].
  intros f' t' a. rewrite elem_of_app, list_elem_of_singleton.
  intros [?|[= -> -> ->]]; [by left|right]. by repeat split.
Qed.

Lemma keeps_transitions_add_labeled f t a :
  keeps (λ g, well_formed g = true) (transitions_add_labeled f t a).
Proof.
  intros g r g' Hwf. unfold transitions_add_labeled, bind, get, modify, raise.
  destruct (bool_decide (f ∈ _)) eqn:Hf; simpl; [|by intros [= _ <-]].
  destruct (bool_decide (t ∈ _)) eqn:Ht; simpl; [|by intros [= _ <-]].
  destruct (bool_decide (a ∈ _)) eqn:Ha; simpl; [|by intros [= _ <-]].
  apply bool_decide_eq_true in Hf, Ht, Ha.
  intros [= _ <-].
  apply (well_formed_step g); simpl; [done|done|done|done|tauto|set_solver|].
  intros f' t' a'. rewrite elem_of_app, list_elem_of_singleton.
  intros [?|[= -> -> ->]]; [by left|right].
  split; [done|]. split; [done|]. by intros x [= <-].
Qed.

Lemma keeps_set_atomic_propositions_ior X :
  keeps (λ g, well_formed g = true)
        (modify (set_atomic_propositions (λ a, MathSet_ior a X))).
Proof.
  apply keeps_modify. intros g Hwf.
  apply (well_formed_step g); simpl; [done| |done|done|tauto|set_solver|tauto].
  unfold MathSet_ior. set_solver.
Qed.

Lemma keeps_set_actions_ior X :
  keeps (λ g, well_formed g = true)
        (modify (set_actions (λ a, MathSet_ior a X))).
Proof.
  apply keeps_modify. intros g Hwf.
  apply (well_formed_step g); simpl; [done|done| |done|tauto|set_solver|tauto].
  unfold MathSet_ior. set_solver.
Qed.

(** *** The builders and the merge *)

Lemma keeps_populate states initial_states ap sl acts trans p :
  keeps (λ g, well_formed g = true)
        (populate states initial_states ap sl acts trans p).
Proof.
  unfold populate.
  apply keeps_bind; [apply keeps_for_each; intros s; apply keeps_states_add|intros _].
  apply keeps_bind; [apply keeps_states_initial_ior|intros _].
  apply keeps_bind; [apply keeps_set_atomic_propositions_ior|intros _].
  apply keeps_bind.
  { destruct sl as [sl|]; [|apply keeps_ret].
    apply keeps_for_each. intros item.
    apply keeps_bind; [apply keeps_lift_result|intros [st lab]].
    apply keeps_states_label_obj. }
  intros _. destruct acts as [acts|].
  - apply keeps_bind; [apply keeps_set_actions_ior|intros _].
    apply keeps_for_each. intros [[f t] [a|]];
      [apply keeps_transitions_add_labeled|apply keeps_raise].
  - apply keeps_for_each. intros [[f t] [a|]];
      [apply keeps_raise|apply keeps_transitions_add].
Qed.



Lemma keeps_merge_states found :
  keeps (λ g, well_formed g = true) (merge_states found).
Proof.
  apply keeps_for_each. intros [s lab].
  apply keeps_bind; [by intros g r g' Hwf [= _ <-]|intros present].
  apply keeps_bind.
  - destruct (negb present); [apply keeps_states_add|apply keeps_ret].
  - intros _. destruct lab; [apply keeps_states_label|apply keeps_ret].
Qed.

Lemma keeps_merge_transitions found :
  keeps (λ g, well_formed g = true) (merge_transitions found).
Proof.
  apply keeps_for_each. intros [[f t] [a|]];
    [apply keeps_transitions_add_labeled|apply keeps_transitions_add].
Qed.

Lemma keeps_add self other : keeps heap_well_formed (__add__ self other).
Proof.
  destruct other as [other| | |]; simpl; try apply keeps_raise.
  apply keeps_bind; [apply keeps_read|intros o1].
  apply keeps_bind;
    [apply keeps_with_graph, keeps_set_atomic_propositions_ior|intros _].
  apply keeps_bind; [apply keeps_read|intros o2].
  apply keeps_bind; [apply keeps_with_graph, keeps_set_actions_ior|intros _].
  apply keeps_bind; [apply keeps_read|intros o3].
  apply keeps_bind; [apply keeps_with_graph, keeps_merge_states|intros _].
  apply keeps_bind; [apply keeps_read|intros o4].
  apply keeps_bind; [apply keeps_with_graph, keeps_states_initial_ior|intros _].
  apply keeps_bind; [apply keeps_read|intros o5].
  apply keeps_bind; [apply keeps_with_graph, keeps_merge_transitions|intros _].
  apply keeps_copy_copy.
Qed.


(** X5. The merge keeps the invariants of the data model: in a store
    whose systems are all well formed, [self + other] leaves a store whose
    systems are all well formed, whatever [other] is and whether the merge
    returns or raises; in particular the target is well formed after the
    merge.  In such a store the merge of a closed system always returns. *)
Theorem add_keeps_well_formed (self : FiniteTransitionSystem) (other : operand)
    (h : heap) res h' :
  heap_well_formed h →
  __add__ self other h = (res, h') →
  heap_well_formed h' ∧
  well_formed (graph_of h' (containers self)) = true ∧
  (is_fts other = true → ∃ r, res = Ok r).
Proof.
  intros Hh Hrun. pose proof (keeps_add self other h res h' Hh Hrun).
  split; [done|]. split; [by apply well_formed_graph_of|].
  destruct other as [o| | |]; try discriminate. intros _.
  rewrite (add_run self o h (well_formed_graph_of h (containers o) Hh)) in Hrun.
  injection Hrun as <- _. by eexists.
Qed.

Lemma add_keeps_well_formed_witness :
  let gt := Graph {[VStr "p"]} ∅ {[VStr "s" := Some {[VStr "p"]}]} ∅ [] false in
  let gs := Graph {[VStr "q"]} ∅
              (<[VStr "s" := Some {[VStr "q"]}]> {[VStr "t" := None]})
              ∅ [(VStr "s", VStr "t", None)] false in
  let h := Heap (<[1%positive := gt]> {[2%positive := gs]}) 3 in
  heap_well_formed h ∧
  well_formed
    (graph_of (snd (__add__ (FTS 1 "a" 1) (OpFTS (FTS 2 "b" 2)) h)) 1) = true.
Proof.
  intros gt gs h.
  assert (Hh : heap_well_formed h).
  { intros r g. unfold h; simpl.
    destruct (decide (r = 1%positive)) as [->|H1].
    { rewrite lookup_insert_eq. by intros [= <-]. }
    rewrite lookup_insert_ne by done.
    destruct (decide (r = 2%positive)) as [->|H2].
    { rewrite lookup_singleton_eq. by intros [= <-]. }
    by rewrite lookup_singleton_ne. }
  split; [done|].
  destruct (__add__ (FTS 1 "a" 1) (OpFTS (FTS 2 "b" 2)) h) as [res h'] eqn:Hrun.
  exact (proj1 (proj2 (add_keeps_well_formed (FTS 1 "a" 1)
                         (OpFTS (FTS 2 "b" 2)) h res h' Hh Hrun))).
Defined.

(** ** More on [tuple2fts] *)

Lemma add_states_lookup l (n : gmap pyval label_dict) k :
  add_states l n !! k
  = match n !! k with
    | Some x => Some x
    | None => if bool_decide (k ∈ l) then Some None else None
    end.
Proof.
  revert n. induction l as [|a l IH]; intros n.
  - simpl. by destruct (n !! k).
  - unfold add_states in *. simpl. rewrite IH.
    destruct (decide (k = a)) as [->|Hne].
    + rewrite (bool_decide_eq_true_2 (a ∈ a :: l)) by left.
      destruct (n !! a) as [x|] eqn:Ha; [by rewrite Ha|].
      by rewrite lookup_insert_eq.
    + assert (Hk : match n !! a with
                   | Some _ => n
                   | None => <[a:=None]> n
                   end !! k = n !! k).
      { destruct (n !! a); [done|]. by rewrite lookup_insert_ne. }
      rewrite Hk. destruct (n !! k); [done|].
      destruct (decide (k ∈ l)).
      * rewrite !bool_decide_eq_true_2; [done|by right|done].
      * rewrite !bool_decide_eq_false_2; [done| |done].
        rewrite elem_of_cons. tauto.
Qed.

Lemma dom_label_nodes p pairs (n : gmap pyval label_dict) :
  dom (label_nodes p pairs n)
  = dom n ∪ list_to_set ((λ sl, prepend1 sl.1 p) <$> pairs).
Proof.
  revert n. induction pairs as [|[s l] pairs IH]; intros n.
  - simpl. set_solver.
  - unfold label_nodes in *. simpl. rewrite IH, dom_insert_L. set_solver.
Qed.

Lemma label_nodes_lookup_notin p pairs (n : gmap pyval label_dict) k :
  k ∉ (λ sl, prepend1 sl.1 p) <$> pairs →
  label_nodes p pairs n !! k = n !! k.
Proof.
  revert n. induction pairs as [|[s l] pairs IH]; intros n Hk; [done|].
  rewrite fmap_cons, not_elem_of_cons in Hk. destruct Hk as [Hne Hk].
  unfold label_nodes in *. simpl. rewrite IH by done.
  by rewrite lookup_insert_ne.
Qed.

Lemma label_nodes_lookup_in p pairs (n : gmap pyval label_dict) s l :
  NoDup ((λ sl, prepend1 sl.1 p) <$> pairs) →
  (s, l) ∈ pairs →
  label_nodes p pairs n !! prepend1 s p = Some (Some l).
Proof.
  revert n. induction pairs as [|[s0 l0] pairs IH]; intros n Hnd Hin.
  - by apply elem_of_nil in Hin.
  - rewrite fmap_cons in Hnd. apply NoDup_cons in Hnd as [Hfirst Hnd].
    apply elem_of_cons in Hin as [[= -> ->]|Hin].
    + change (label_nodes p ((s0, l0) :: pairs) n)
        with (label_nodes p pairs (<[prepend1 s0 p := Some l0]> n)).
      rewrite label_nodes_lookup_notin by done. by rewrite lookup_insert_eq.
    + change (label_nodes p ((s0, l0) :: pairs) n)
        with (label_nodes p pairs (<[prepend1 s0 p := Some l0]> n)).
      by apply IH.
Qed.

Lemma label_states_run_nodes sl pairs p g :
  Forall2 labels_as sl pairs →
  (∀ s l, (s, l) ∈ pairs →
     prepend1 s p ∈ dom (nodes g) ∧ l ⊆ atomic_propositions g) →
  label_states sl p g = (Ok tt, set_nodes (label_nodes p pairs) g).
Proof.
  intros Hsl. revert g.
  induction Hsl as [|item [s l] sl pairs (lab & -> & Hlab) _ IH]; intros g Hok.
  - by destruct g.
  - destruct (Hok s l) as [Hs Hl]; [by left|].
    unfold label_states in *. simpl in *.
    unfold bind at 1. unfold bind at 1, lift_result. rewrite Hlab. simpl.
    unfold states_label, bind at 1, get.
    rewrite !bool_decide_eq_true_2 by done. unfold modify.
    rewrite IH.
    + by destruct g.
    + intros s' l' Hin. destruct (Hok s' l') as [Hs' Hl']; [by right|].
      simpl. split; [|done]. rewrite dom_insert. set_solver.
Qed.

Lemma prepend1_elem_of s S p : s ∈ S → prepend1 s p ∈ prepend_with S p.
Proof.
  intros Hs. destruct p as [p|]; simpl; [|done].
  apply list_elem_of_fmap. by exists s.
Qed.

(** [populate] on new containers, when every statement of it meets what
    the graph layer asks for. *)
Lemma populate_run states initial_states ap sl pairs acts trans p b :
  (∀ s, s ∈ initial_states → s ∈ states) →
  match sl with
  | Some sl => Forall2 labels_as sl pairs
  | None => pairs = []
  end →
  (∀ s l, (s, l) ∈ pairs →
     prepend1 s p ∈ states ∧ l ⊆ list_to_set ap) →
  (∀ e, e ∈ trans →
     prepend1 e.1.1 p ∈ states ∧ prepend1 e.1.2 p ∈ states ∧
     match acts with
     | Some acts => ∃ a, e.2 = Some a ∧ a ∈ acts
     | None => e.2 = None
     end) →
  populate states initial_states ap sl acts trans p (empty_graph b)
  = (Ok tt,
     Graph (list_to_set ap) (list_to_set (default [] acts))
           (label_nodes p pairs (add_states states ∅))
           (list_to_set initial_states) (prefix_edge p <$> trans) b).
Proof.
  intros Hini Hsl Hpairs Htrans. unfold populate.
  unfold bind at 1. rewrite states_add_from_run.
  assert (Hdom1 : dom (add_states states (∅ : gmap pyval label_dict))
                  = list_to_set states).
  { rewrite dom_add_states, dom_empty_L. by rewrite (left_id_L ∅ (∪)). }
  unfold bind at 1. rewrite states_initial_ior_run; last first.
  { intros s Hs. simpl. rewrite Hdom1. apply elem_of_list_to_set. auto. }
  unfold bind at 1, modify at 1.
  set (g3 := set_atomic_propositions _ _).
  assert (Hg3 : g3 = Graph (list_to_set ap) ∅ (add_states states ∅)
                           (list_to_set initial_states) [] b).
  { unfold g3, set_atomic_propositions, set_initial, set_nodes, MathSet_ior.
    simpl. by rewrite !(left_id_L ∅ (∪)). }
  clearbody g3. subst g3.
  set (g4 := Graph (list_to_set ap) ∅
                   (label_nodes p pairs (add_states states ∅))
                   (list_to_set initial_states) [] b).
  assert (H4 : match sl with
               | Some state_labeling => label_states state_labeling p
               | None => ret tt
               end (Graph (list_to_set ap) ∅ (add_states states ∅)
                          (list_to_set initial_states) [] b) = (Ok tt, g4)).
  { destruct sl as [sl|].
    - rewrite (label_states_run_nodes sl pairs); [done|done|].
      intros s l Hin. destruct (Hpairs s l Hin) as [Hs Hl]. simpl.
      split; [|done]. rewrite Hdom1. by apply elem_of_list_to_set.
    - subst pairs. done. }
  unfold bind at 1. rewrite H4.
  assert (Hdom4 : ∀ s, s ∈ states → s ∈ dom (nodes g4)).
  { intros s Hs. simpl. rewrite dom_label_nodes, Hdom1.
    apply elem_of_union_l. by apply elem_of_list_to_set. }
  destruct acts as [acts|].
  - unfold bind at 1, modify at 1.
    rewrite add_labeled_run.
    + unfold set_edges, set_actions, MathSet_ior, g4. simpl.
      by rewrite (left_id_L ∅ (∪)).
    + intros e He. destruct (Htrans e He) as (Hf & Ht & a & Ha & Hin).
      exists a. split; [done|]. split.
      { simpl. unfold MathSet_ior. rewrite (left_id_L ∅ (∪)).
        by apply elem_of_list_to_set. }
      split; apply Hdom4; done.
  - rewrite add_unlabeled_run.
    + done.
    + intros e He. destruct (Htrans e He) as (Hf & Ht & Ha).
      split; [done|]. split; apply Hdom4; done.
Qed.




(** ** When [tuple2fts] returns *)

(** What a call of [tuple2fts] that returns went through. *)
Lemma tuple2fts_populate S S0 AP L Act trans name p h ts h' :
  tuple2fts S S0 AP L Act trans name p h = (Ok ts, h') →
  ∃ sl g',
    pair_labels_with_states S L = Ok sl ∧
    populate (prepend_with S p) (prepend_with (initial_list S0) p) AP sl Act
             trans p (empty_graph false) = (Ok tt, g') ∧
    graph_of h' (containers ts) = g'.
Proof.
  unfold tuple2fts. intros (sl & h0 & Hsl & H)%bind_inv.
  unfold lift_result in Hsl. injection Hsl as Hsl <-.
  apply bind_inv in H as (ts' & h1 & Hnew & H).
  unfold new_FiniteTransitionSystem in Hnew. injection Hnew as <- <-.
  apply bind_inv in H as ([] & h2 & Hpop & H). injection H as <- <-.
  simpl in *. unfold with_graph in Hpop. rewrite graph_of_alloc in Hpop.
  destruct (populate _ _ _ _ _ _ _ _) as [[[]|e] g'] eqn:Hrun; [|done].
  injection Hpop as <-. rewrite graph_of_store.
  by exists sl, g'.
Qed.

Lemma add_unlabeled_shape trans p g g' :
  add_unlabeled trans p g = (Ok tt, g') → ∀ e, e ∈ trans → e.2 = None.
Proof.
  revert g. induction trans as [|[[f t] a] trans IH]; intros g Hrun e He.
  - by apply elem_of_nil in He.
  - unfold add_unlabeled in *. simpl in Hrun.
    apply bind_inv in Hrun as ([] & g1 & H1 & Hrest).
    apply elem_of_cons in He as [->|He]; [|by eapply IH].
    by destruct a.
Qed.

Lemma add_labeled_shape trans p g g' :
  add_labeled trans p g = (Ok tt, g') → ∀ e, e ∈ trans → ∃ a, e.2 = Some a.
Proof.
  revert g. induction trans as [|[[f t] a] trans IH]; intros g Hrun e He.
  - by apply elem_of_nil in He.
  - unfold add_labeled in *. simpl in Hrun.
    apply bind_inv in Hrun as ([] & g1 & H1 & Hrest).
    apply elem_of_cons in He as [->|He]; [|by eapply IH].
    destruct a; [by eexists|done].
Qed.

Lemma populate_shape states initial_states ap sl acts trans p g g' :
  populate states initial_states ap sl acts trans p g = (Ok tt, g') →
  ∀ e, e ∈ trans →
    match acts with
    | Some _ => ∃ a, e.2 = Some a
    | None => e.2 = None
    end.
Proof.
  unfold populate.
  intros ([] & g1 & _ & H)%bind_inv.
  apply bind_inv in H as ([] & g2 & _ & H).
  apply bind_inv in H as ([] & g3 & _ & H).
  apply bind_inv in H as ([] & g4 & _ & H).
  destruct acts as [acts|].
  - apply bind_inv in H as ([] & g5 & _ & H). by eapply add_labeled_shape.
  - by eapply add_unlabeled_shape.
Qed.

(** X7. [tuple2fts] returns only on arguments that fit together: the
    labeling is not an empty list, every (prefixed) initial state is one
    of the (prefixed) states, both ends of every transition are states,
    and the transitions have the shape [Act] asks for: no action when
    [Act] is [None], and an action of [Act] otherwise. *)
Theorem tuple2fts_returns_only_if S S0 AP L Act trans name p h ts h' :
  tuple2fts S S0 AP L Act trans name p h = (Ok ts, h') →
  L ≠ Some [] ∧
  (∀ s, s ∈ prepend_with (initial_list S0) p → s ∈ prepend_with S p) ∧
  (∀ e, e ∈ trans →
     prepend1 e.1.1 p ∈ prepend_with S p ∧
     prepend1 e.1.2 p ∈ prepend_with S p ∧
     match Act with
     | Some acts => ∃ a, e.2 = Some a ∧ a ∈ acts
     | None => e.2 = None
     end).
Proof.
  intros Hrun. split.
  { intros ->. by apply tuple2fts_labeling_nonempty in Hrun. }
  apply tuple2fts_populate in Hrun as (sl & g' & _ & Hpop & _).
  assert (Hwf : well_formed g' = true).
  { exact (keeps_populate _ _ _ _ _ _ _ _ _ _ (well_formed_empty_graph false) Hpop). }
  assert (Hshape := populate_shape _ _ _ _ _ _ _ _ _ Hpop).
  apply populate_inv in Hpop as (_ & Hact & Hdom & Hini & Hed & _).
  simpl in Hact, Hdom, Hini, Hed.
  rewrite dom_empty_L, (left_id_L ∅ (∪)) in Hdom.
  rewrite (left_id_L ∅ (∪)) in Hini, Hact.
  split.
  - intros s Hs. apply (elem_of_list_to_set (C := gset pyval)).
    rewrite <- Hdom. apply (well_formed_initial g' Hwf).
    rewrite Hini. by apply elem_of_list_to_set.
  - intros [[f t] a] He.
    destruct (well_formed_edges g' (prepend1 f p) (prepend1 t p) a Hwf)
      as (Hf & Ht & Ha).
    { rewrite Hed. apply list_elem_of_fmap. by exists (f, t, a). }
    rewrite Hdom in Hf, Ht. apply elem_of_list_to_set in Hf, Ht.
    split; [done|]. split; [done|].
    specialize (Hshape _ He). simpl in *. destruct Act as [acts|]; [|done].
    simpl in Hact. destruct Hshape as [x ->]. exists x. split; [done|].
    apply (elem_of_list_to_set (C := gset pyval)). rewrite <- Hact. by apply Ha.
Qed.

Lemma tuple2fts_returns_only_if_witness :
  let ts := FTS 1 "fts" 1 in
  let h' := Heap {[ 1%positive :=
                 Graph ∅ {[VStr "a"]}
                   (<[VInt 0 := None]> (<[VInt 1 := None]> ∅))
                   {[VInt 0]} [(VInt 0, VInt 1, Some (VStr "a"))] false ]} 2 in
  tuple2fts [VInt 0; VInt 1] (S0_iter [VInt 0]) [] None (Some [VStr "a"])
    [(VInt 0, VInt 1, Some (VStr "a"))] "fts" None empty_heap = (Ok ts, h') ∧
  ∃ a, (VInt 0, VInt 1, Some (VStr "a")).2 = Some a ∧ a ∈ [VStr "a"].
Proof.
  intros ts h'.
  assert (Hrun : tuple2fts [VInt 0; VInt 1] (S0_iter [VInt 0]) [] None
                   (Some [VStr "a"]) [(VInt 0, VInt 1, Some (VStr "a"))]
                   "fts" None empty_heap = (Ok ts, h')).
  { vm_compute. reflexivity. }
  split; [exact Hrun|].
  refine (proj2 (proj2 (proj2 (proj2
    (tuple2fts_returns_only_if _ _ _ _ _ _ _ _ _ _ _ Hrun))
    (VInt 0, VInt 1, Some (VStr "a")) _))).
  by left.
Defined.

(** X8. A state labeling that cannot be read makes [tuple2fts] raise
    before it builds anything, so that the store is as before: an empty
    list is an [IndexError] (its first entry is looked at), and a first
    entry that is a number or [True] is a [TypeError] (it is unpacked, and
    only a [ValueError] is caught). *)
Theorem tuple2fts_labeling_errors S S0 AP Act trans name p h :
  tuple2fts S S0 AP (Some []) Act trans name p h = (Raise IndexError, h) ∧
  (∀ v rest,
     (∀ s, v ≠ VStr s) → (∀ a b, v ≠ VTuple a b) →
     tuple2fts S S0 AP (Some (OVal v :: rest)) Act trans name p h
     = (Raise TypeError, h)).
Proof.
  split; [done|]. intros v rest Hs Ht.
  destruct v as [z|s| |a b]; [done|by destruct (Hs s)|done|by destruct (Ht a b)].
Qed.

(** X9. A list of bare labels whose first label is a set of exactly two
    propositions is taken for a list of (state, label) pairs: the first
    proposition is read as a state and the second as its label.  So when
    neither proposition is (after the prefix) one of the states,
    [tuple2fts] does not return a system. *)
Theorem tuple2fts_two_element_first_label S S0 AP (l : gset pyval) rest Act
    trans name p h :
  size l = 2%nat →
  (∀ x, x ∈ l → prepend1 x p ∉ prepend_with S p) →
  (∃ a b, elements l = [a; b] ∧
          pair_labels_with_states S (Some (OSet l :: rest))
          = Ok (Some (Ok (a, OVal b) :: (unpack_pair <$> rest)))) ∧
  ∃ e h', tuple2fts S S0 AP (Some (OSet l :: rest)) Act trans name p h
          = (Raise e, h').
Proof.
  intros Hsize Hnot.
  assert (Hel : ∃ a b, elements l = [a; b]).
  { unfold size, set_size in Hsize. simpl in Hsize.
    destruct (elements l) as [|a [|b [|c els]]]; try done. by exists a, b. }
  destruct Hel as (a & b & Hel).
  assert (Hpair : pair_labels_with_states S (Some (OSet l :: rest))
                  = Ok (Some (Ok (a, OVal b) :: (unpack_pair <$> rest)))).
  { unfold pair_labels_with_states. simpl. by rewrite Hel. }
  split; [by exists a, b|].
  destruct (tuple2fts S S0 AP (Some (OSet l :: rest)) Act trans name p h)
    as [[ts|e] h'] eqn:Hrun; [|by exists e, h'].
  exfalso.
  apply tuple2fts_populate in Hrun as (sl & g' & Hsl & Hpop & _).
  rewrite Hpair in Hsl. injection Hsl as <-.
  unfold populate in Hpop.
  apply bind_inv in Hpop as ([] & g1 & H1 & H).
  rewrite states_add_from_run in H1. injection H1 as <-.
  apply bind_inv in H as ([] & g2 & H2 & H).
  apply states_initial_ior_inv in H2 as ->.
  apply bind_inv in H as ([] & g3 & H3 & H). injection H3 as <-.
  apply bind_inv in H as ([] & g4 & H4 & _).
  unfold label_states in H4. simpl in H4.
  apply bind_inv in H4 as ([] & g5 & H5 & _).
  unfold bind, lift_result in H5.
  assert (Ha : prepend1 a p ∉ prepend_with S p).
  { apply Hnot. apply elem_of_elements. rewrite Hel. by left. }
  destruct b as [z|s| |u v]; simpl in H5; try done.
  unfold states_label, bind, get in H5. simpl in H5.
  rewrite bool_decide_eq_false_2 in H5; [done|].
  rewrite dom_add_states, dom_empty_L, (left_id_L ∅ (∪)).
  by rewrite elem_of_list_to_set.
Qed.

Lemma tuple2fts_two_element_first_label_witness :
  ∃ e h', tuple2fts [VInt 0] (S0_iter []) [VStr "p"; VStr "q"]
            (Some [OSet {[VStr "p"; VStr "q"]}]) None [] "fts" None empty_heap
          = (Raise e, h').
Proof.
  apply (tuple2fts_two_element_first_label [VInt 0] (S0_iter [])
           [VStr "p"; VStr "q"] {[VStr "p"; VStr "q"]} [] None [] "fts" None
           empty_heap).
  - by vm_compute.
  - intros x Hx Hin. cbv [prepend1 prepend_with] in Hin.
    apply list_elem_of_singleton in Hin as ->.
    revert Hx. apply (bool_decide_unpack _). by vm_compute.
Defined.

(** ** The shape of the line and of the cycle *)

Lemma strings_of_is_str L :
  Forall (λ x, is_str x = true) L → ∃ ps : list string, L = OVal ∘ VStr <$> ps.
Proof.
  induction 1 as [|x L Hx _ [ps ->]]; [by exists []|].
  destruct x as [[| s | |]| |]; try discriminate. by exists (s :: ps).
Qed.

Lemma prepend_with_range a b :
  prepend_with (range a b) (Some "s") = state_name <$> seqZ a (b - a).
Proof. unfold range. simpl. by rewrite <- list_fmap_compose. Qed.

Lemma zip_with_seqZ_succ {A} (f : Z → Z → A) m k :
  zip_with f (seqZ m k) (seqZ (m + 1) k) = (λ i, f i (i + 1)) <$> seqZ m k.
Proof.
  apply list_eq. intros i. rewrite lookup_zip_with, list_lookup_fmap.
  destruct (decide (Z.of_nat i < k)) as [Hi|Hi].
  - rewrite !lookup_seqZ_lt by done. simpl. f_equal. f_equal. lia.
  - by rewrite !lookup_seqZ_ge by lia.
Qed.

Lemma line_transitions_edges n m :
  prefix_edge (Some "s") <$> line_transitions n m
  = (λ i, (state_name i, state_name (i + 1), None)) <$> seqZ m (Z.of_nat n - 1).
Proof.
  unfold line_transitions, range.
  replace (m + Z.of_nat n - 1 - m) with (Z.of_nat n - 1) by lia.
  replace (m + Z.of_nat n - (m + 1)) with (Z.of_nat n - 1) by lia.
  rewrite zip_with_fmap_l, zip_with_fmap_r, zip_with_seqZ_succ.
  rewrite <- !list_fmap_compose. done.
Qed.

Lemma line_labeling_keys (ps : list string) m :
  (λ sl : pyval * gset pyval, prepend1 sl.1 (Some "s")) <$>
    zip (line_states (length ps) m) ((λ p, {[VStr p]}) <$> ps)
  = state_name <$> seqZ m (Z.of_nat (length ps)).
Proof.
  transitivity ((λ s, prepend1 s (Some "s")) <$>
                  (zip (line_states (length ps) m)
                       ((λ p, {[VStr p]} : gset pyval) <$> ps)).*1).
  { by rewrite <- list_fmap_compose. }
  rewrite fst_zip.
  - unfold line_states, range.
    replace (m + Z.of_nat (length ps) - m) with (Z.of_nat (length ps)) by lia.
    by rewrite <- list_fmap_compose.
  - unfold line_states, range.
    rewrite !length_fmap, length_seqZ. lia.
Qed.

Lemma line_graph_dom ps m AP s :
  s ∈ dom (nodes (line_graph ps m AP))
  ↔ ∃ i, m ≤ i < m + Z.of_nat (length ps) ∧ s = state_name i.
Proof.
  unfold line_graph; cbn [nodes].
  rewrite dom_label_nodes, dom_add_states, dom_empty_L, (left_id_L ∅ (∪)).
  rewrite line_labeling_keys. unfold line_states. rewrite prepend_with_range.
  replace (m + Z.of_nat (length ps) - m) with (Z.of_nat (length ps)) by lia.
  rewrite elem_of_union, !elem_of_list_to_set, list_elem_of_fmap.
  setoid_rewrite elem_of_seqZ.
  split.
  - intros [(i & -> & Hi)|(i & -> & Hi)]; exists i; (split; [lia|done]).
  - intros (i & Hi & ->). left. exists i. split; [done|lia].
Qed.

Lemma size_line_graph_dom ps m AP :
  size (dom (nodes (line_graph ps m AP))) = length ps.
Proof.
  unfold line_graph; cbn [nodes].
  rewrite dom_label_nodes, dom_add_states, dom_empty_L, (left_id_L ∅ (∪)).
  rewrite line_labeling_keys. unfold line_states. rewrite prepend_with_range.
  replace (m + Z.of_nat (length ps) - m) with (Z.of_nat (length ps)) by lia.
  rewrite (idemp_L (∪)).
  rewrite size_list_to_set.
  - rewrite length_fmap, length_seqZ. lia.
  - apply (NoDup_fmap_2 _), NoDup_seqZ.
Qed.

Lemma line_graph_label (ps : list string) m AP (i : nat) p :
  ps !! i = Some p →
  nodes (line_graph ps m AP) !! state_name (m + Z.of_nat i)
  = Some (Some {[VStr p]}).
Proof.
  intros Hp. unfold line_graph; cbn [nodes].
  apply (label_nodes_lookup_in (Some "s") _ _ (VInt (m + Z.of_nat i))).
  - rewrite line_labeling_keys. apply (NoDup_fmap_2 _), NoDup_seqZ.
  - apply list_elem_of_lookup. exists i.
    rewrite lookup_zip_with. unfold line_states, range.
    rewrite !list_lookup_fmap, Hp.
    rewrite lookup_seqZ_lt; [done|].
    apply lookup_lt_Some in Hp. lia.
Qed.

(** On a non-empty list of strings [line_labeled_with] returns a new
    instance over new containers holding [line_graph]. *)
Lemma line_labeled_with_graph (ps : list string) m h :
  ps ≠ [] →
  ∃ AP, negation_closure (OVal ∘ VStr <$> ps) = Ok AP ∧
        line_labeled_with (OVal ∘ VStr <$> ps) m h
        = (Ok (FTS (next_id h) "fts" (fresh (dom (graphs h)))),
           Heap (<[fresh (dom (graphs h)) := line_graph ps m AP]> (graphs h))
                (Pos.succ (next_id h))).
Proof.
  intros Hps.
  destruct (negation_closure_strings_elem_of ps) as (AP & Hclosure & HAP & _).
  exists AP. split; [done|].
  unfold line_labeled_with. unfold bind at 1, lift_result. rewrite Hclosure.
  rewrite length_fmap.
  change (range m (m + Z.of_nat (length ps))) with (line_states (length ps) m).
  change (_ <$> zip (range m _) (range (m + 1) _))
    with (line_transitions (length ps) m).
  set (S := line_states (length ps) m).
  set (pairs := zip S ((λ p, {[VStr p]} : gset pyval) <$> ps)).
  assert (Hsl := pair_labels_with_states_strings S ps Hps).
  assert (Hstate : ∀ z, m ≤ z < m + Z.of_nat (length ps) →
            prepend1 (VInt z) (Some "s") ∈ prepend_with S (Some "s")).
  { intros z Hz. apply prepend1_elem_of, elem_of_range. by exists z. }
  assert (Hpop : populate (prepend_with S (Some "s"))
                   (prepend_with (initial_list (S0_iter [])) (Some "s")) AP
                   (Some (Ok <$> zip S (OVal ∘ VStr <$> ps))) None
                   (line_transitions (length ps) m) (Some "s")
                   (empty_graph false) = (Ok tt, line_graph ps m AP)).
  { etrans; [apply (populate_run _ _ _ _ pairs)|done].
    - intros s []%elem_of_nil.
    - unfold pairs. clear. generalize S. clear.
      induction ps as [|p ps IH]; intros S; destruct S as [|s S];
        simpl; try constructor; [|apply IH].
      by exists (OVal (VStr p)).
    - intros s l Hin. unfold pairs in Hin.
      apply elem_of_zip in Hin as [Hs Hl]. split.
      + by apply prepend1_elem_of.
      + apply list_elem_of_fmap in Hl as (p & -> & Hp).
        apply singleton_subseteq_l, elem_of_list_to_set. by apply HAP.
    - intros e ([f t] & -> & Hin)%list_elem_of_fmap. simpl.
      apply elem_of_zip in Hin as (Hf & Ht).
      apply elem_of_range in Hf as (zf & -> & Hzf).
      apply elem_of_range in Ht as (zt & -> & Hzt).
      split; [apply Hstate; lia|]. split; [apply Hstate; lia|done]. }
  rewrite (bind_run _ _ _ _ _
             (tuple2fts_run S (S0_iter []) AP (Some (OVal ∘ VStr <$> ps)) None
                (line_transitions (length ps) m) "fts" (Some "s") h _ _
                Hsl Hpop)).
  done.
Qed.

(** X10. On a non-empty list of strings [line_labeled_with(L, m)] returns
    the terminating sequence its documentation describes: the states are
    's' + str(i) for m <= i < m + len(L), as many as there are labels; the
    state at position [i] carries the singleton of the i-th label; the
    transitions are, in order, those from each state but the last to the
    next one, len(L) - 1 of them, so the last state has no successor;
    there is no initial state and no action. *)
Theorem line_labeled_with_structure (ps : list string) (m : Z) (h : heap) :
  ps ≠ [] →
  ∃ ts h',
    line_labeled_with (OVal ∘ VStr <$> ps) m h = (Ok ts, h') ∧
    let g := graph_of h' (containers ts) in
    let n := Z.of_nat (length ps) in
    (∀ s, s ∈ dom (nodes g) ↔ ∃ i, m ≤ i < m + n ∧ s = state_name i) ∧
    size (dom (nodes g)) = length ps ∧
    (∀ (i : nat) p, ps !! i = Some p →
       nodes g !! state_name (m + Z.of_nat i) = Some (Some {[VStr p]})) ∧
    edges g = (λ i, (state_name i, state_name (i + 1), None)) <$> seqZ m (n - 1) ∧
    length (edges g) = (length ps - 1)%nat ∧
    (∀ t a, (state_name (m + n - 1), t, a) ∉ edges g) ∧
    initial g = ∅ ∧
    actions g = ∅.
Proof.
  intros Hps. destruct (line_labeled_with_graph ps m h Hps) as (AP & _ & Hrun).
  eexists _, _. split; [exact Hrun|].
  cbn [containers]. rewrite graph_of_heap_insert. cbv zeta.
  split; [apply line_graph_dom|].
  split; [apply size_line_graph_dom|].
  split; [apply line_graph_label|].
  assert (Hed : edges (line_graph ps m AP)
                = (λ i, (state_name i, state_name (i + 1), None)) <$>
                    seqZ m (Z.of_nat (length ps) - 1)).
  { apply line_transitions_edges. }
  split; [done|]. rewrite Hed.
  split; [rewrite length_fmap, length_seqZ; lia|].
  split; [|done].
  intros t a (i & Heq & Hin)%list_elem_of_fmap.
  assert (Hi : state_name (m + Z.of_nat (length ps) - 1) = state_name i)
    by congruence.
  apply (inj state_name) in Hi. apply elem_of_seqZ in Hin. lia.
Qed.

Lemma line_labeled_with_structure_witness :
  ∃ ts h',
    line_labeled_with (OVal ∘ VStr <$> ["p"; "q"]) 3 empty_heap = (Ok ts, h') ∧
    nodes (graph_of h' (containers ts)) !! state_name 4 = Some (Some {[VStr "q"]}).
Proof.
  destruct (line_labeled_with_structure ["p"; "q"] 3 empty_heap)
    as (ts & h' & Hrun & _ & _ & Hlab & _); [done|].
  exists ts, h'. split; [done|]. exact (Hlab 1%nat "q" eq_refl).
Defined.

(** X11. On a non-empty list of strings [cycle_labeled_with(L)] returns
    the cycle its documentation describes: the states 's0' ... 's' +
    str(len(L) - 1) labeled by position as in the line, and len(L)
    transitions, those of the line followed by the one from the last state
    to 's0'; every state has a successor.  On a single label the cycle is
    one state with a loop. *)
Theorem cycle_labeled_with_structure (ps : list string) (h : heap) :
  ps ≠ [] →
  ∃ ts h',
    cycle_labeled_with (OVal ∘ VStr <$> ps) h = (Ok ts, h') ∧
    let g := graph_of h' (containers ts) in
    let n := Z.of_nat (length ps) in
    (∀ s, s ∈ dom (nodes g) ↔ ∃ i, 0 ≤ i < n ∧ s = state_name i) ∧
    (∀ (i : nat) p, ps !! i = Some p →
       nodes g !! state_name (Z.of_nat i) = Some (Some {[VStr p]})) ∧
    edges g = (((λ i, (state_name i, state_name (i + 1), None)) <$> seqZ 0 (n - 1))
               ++ [(state_name (n - 1), state_name 0, None)])%list ∧
    length (edges g) = length ps ∧
    (∀ s, s ∈ dom (nodes g) → ∃ t, t ∈ dom (nodes g) ∧ (s, t, None) ∈ edges g) ∧
    (n = 1 → edges g = [(state_name 0, state_name 0, None)]).
Proof.
  intros Hps. destruct (line_labeled_with_graph ps 0 h Hps) as (AP & _ & Hrun).
  assert (Hn : 0 < Z.of_nat (length ps)) by (destruct ps; [done|simpl; lia]).
  eexists _, _. split; [exact (cycle_of_line _ _ _ _ Hrun)|].
  cbn [containers]. rewrite graph_of_store, graph_of_heap_insert.
  rewrite length_fmap. cbv zeta.
  assert (Hed : edges (set_edges
                  (λ e, (e ++ [(VStr ("s" +:+ str (VInt (Z.of_nat (length ps) - 1))),
                                VStr "s0", None)])%list) (line_graph ps 0 AP))
                = (((λ i, (state_name i, state_name (i + 1), None)) <$>
                      seqZ 0 (Z.of_nat (length ps) - 1))
                   ++ [(state_name (Z.of_nat (length ps) - 1), state_name 0, None)])%list).
  { cbn [edges set_edges]. change (edges (line_graph ps 0 AP))
      with (prefix_edge (Some "s") <$> line_transitions (length ps) 0).
    by rewrite line_transitions_edges. }
  assert (Hdom : ∀ s, s ∈ dom (nodes (line_graph ps 0 AP))
                      ↔ ∃ i, 0 ≤ i < Z.of_nat (length ps) ∧ s = state_name i).
  { intros s. rewrite line_graph_dom. by rewrite Z.add_0_l. }
  split; [exact Hdom|].
  split.
  { intros i p Hp. cbn [nodes set_edges].
    rewrite <- (line_graph_label ps 0 AP i p Hp). by rewrite Z.add_0_l. }
  split; [exact Hed|]. rewrite Hed.
  split.
  { rewrite length_app, length_fmap, length_seqZ. simpl. lia. }
  split.
  - intros s (i & Hi & ->)%Hdom. cbn [nodes set_edges].
    destruct (decide (i = Z.of_nat (length ps) - 1)) as [->|Hlast].
    + exists (state_name 0). split; [apply Hdom; exists 0; split; [lia|done]|].
      apply elem_of_app. right. by left.
    + exists (state_name (i + 1)).
      split; [apply Hdom; exists (i + 1); split; [lia|done]|].
      apply elem_of_app. left. apply list_elem_of_fmap. exists i.
      split; [done|]. apply elem_of_seqZ. lia.
  - intros H1. by rewrite H1.
Qed.

Lemma cycle_labeled_with_structure_witness :
  ∃ ts h',
    cycle_labeled_with (OVal ∘ VStr <$> ["p"]) empty_heap = (Ok ts, h') ∧
    edges (graph_of h' (containers ts)) = [(state_name 0, state_name 0, None)].
Proof.
  destruct (cycle_labeled_with_structure ["p"] empty_heap)
    as (ts & h' & Hrun & _ & _ & _ & _ & _ & Hloop); [done|].
  exists ts, h'. split; [done|]. by apply Hloop.
Defined.

(** X12. [line_labeled_with] and [cycle_labeled_with] return exactly on
    the non-empty lists of strings.  On the empty list they raise
    [IndexError], and on a list with an entry that is not a string (a set
    of propositions among them) they raise [AttributeError]; in both cases
    nothing has been built and the store is as before. *)
Theorem line_labeled_with_outcome (L : list pyobj) (m : Z) (h : heap) :
  ((∃ ts h', line_labeled_with L m h = (Ok ts, h'))
   ↔ L ≠ [] ∧ Forall (λ x, is_str x = true) L) ∧
  ((∃ ts h', cycle_labeled_with L h = (Ok ts, h'))
   ↔ L ≠ [] ∧ Forall (λ x, is_str x = true) L) ∧
  (L = [] →
   line_labeled_with L m h = (Raise IndexError, h) ∧
   cycle_labeled_with L h = (Raise IndexError, h)) ∧
  (Exists (λ x, is_str x = false) L →
   line_labeled_with L m h = (Raise AttributeError, h) ∧
   cycle_labeled_with L h = (Raise AttributeError, h)).
Proof.
  assert (Hret : ∀ m', (∃ ts h', line_labeled_with L m' h = (Ok ts, h'))
                       ↔ L ≠ [] ∧ Forall (λ x, is_str x = true) L).
  { intros m'. split.
    - intros (ts & h' & Hrun).
      apply line_labeled_with_inv in Hrun as (AP & Hap & Htup).
      split; [by apply tuple2fts_labeling_nonempty in Htup|].
      unfold negation_closure in Hap.
      destruct (closure_items L) as [ap|e] eqn:Hitems; [|done].
      clear -Hitems. revert ap Hitems.
      induction L as [|x L IH]; intros ap Hitems; [constructor|].
      destruct x as [[| s | |]| |]; try discriminate. simpl in Hitems.
      destruct (closure_items L) as [ap'|]; [|done].
      constructor; [done|]. by apply (IH ap').
    - intros [Hne [ps ->]%strings_of_is_str].
      apply line_labeled_with_run. by intros ->. }
  assert (Hraise : ∀ e m', line_labeled_with L m' h = (Raise e, h) →
                           cycle_labeled_with L h = (Raise e, h) ∨ m' ≠ 0).
  { intros e m' Hrun. destruct (decide (m' = 0)) as [->|]; [left|by right].
    unfold cycle_labeled_with. by rewrite (bind_raise _ _ _ _ _ Hrun). }
  split; [apply Hret|]. split; [|split].
  - rewrite <- (Hret 0). split.
    + intros (ts & h' & Hrun). unfold cycle_labeled_with in Hrun.
      apply bind_inv in Hrun as (ts' & h1 & Hline & _). by exists ts', h1.
    + intros (ts & h' & Hline). eexists _, _. by apply cycle_of_line.
  - intros ->.
    assert (Hline : ∀ m', line_labeled_with [] m' h = (Raise IndexError, h))
      by done.
    split; [apply Hline|].
    destruct (Hraise IndexError 0 (Hline 0)); done.
  - intros Hex%closure_items_Raise.
    assert (Hline : ∀ m', line_labeled_with L m' h = (Raise AttributeError, h)).
    { intros m'. unfold line_labeled_with, negation_closure.
      rewrite Hex. done. }
    split; [apply Hline|].
    destruct (Hraise AttributeError 0 (Hline 0)); done.
Qed.

(** ** What the operations leave alone *)

Lemma graph_of_alloc_ne h g r :
  r ∈ dom (graphs h) →
  graph_of (Heap (<[fresh (dom (graphs h)) := g]> (graphs h)) (Pos.succ (next_id h))) r
  = graph_of h r.
Proof.
  intros Hr. unfold graph_of; simpl. rewrite lookup_insert_ne; [done|].
  intros <-. by apply is_fresh in Hr.
Qed.

(** The synchronous product of two closed systems, run. *)
Lemma _sync_prod_run (T1 T2 : FiniteTransitionSystem) (h : heap) :
  let g1 := graph_of h (containers T1) in
  let g2 := graph_of h (containers T2) in
  _sync_prod T1 T2 h
  = (Ok (FTS (next_id h) "" (fresh (dom (graphs h)))),
     Heap (<[fresh (dom (graphs h)) :=
               Graph (atomic_propositions g1 ∪ atomic_propositions g2)
                     (MathSet_mul (actions g1) (actions g2))
                     (product_nodes g1 g2) (product_initial g1 g2)
                     (tensor_edges g1 g2) (mutants g1 || mutants g2)]>
             (graphs h))
          (Pos.succ (next_id h))).
Proof.
  unfold _sync_prod, read, new_FiniteTransitionSystem, with_graph,
    bind, ret, modify, tensor_product. simpl.
  rewrite graph_of_alloc. simpl.
  rewrite !graph_of_store. unfold store_graph. simpl.
  rewrite !insert_insert_eq.
  unfold MathSet_ior, MathSet_or, set_edges, set_initial, set_nodes,
    set_actions, set_atomic_propositions, empty_graph. simpl.
  rewrite !(left_id_L ∅ (∪)).
  by destruct (mutants _ || mutants _).
Qed.

(** The asynchronous product of two closed systems, run. *)
Lemma async_prod_run (T1 T2 : FiniteTransitionSystem) (h : heap) :
  let g1 := graph_of h (containers T1) in
  let g2 := graph_of h (containers T2) in
  async_prod T1 (OpFTS T2) h
  = (Ok (FTS (next_id h) "" (fresh (dom (graphs h)))),
     Heap (<[fresh (dom (graphs h)) :=
               Graph (atomic_propositions g1 ∪ atomic_propositions g2)
                     (actions g1 ∪ actions g2)
                     (product_nodes g1 g2) (product_initial g1 g2)
                     (interleaving_edges g1 g2) (mutants g1 || mutants g2)]>
             (graphs h))
          (Pos.succ (next_id h))).
Proof.
  unfold async_prod, read, new_FiniteTransitionSystem, with_graph,
    bind, ret, modify, cartesian_product. simpl.
  rewrite graph_of_alloc. simpl.
  rewrite !graph_of_store. unfold store_graph. simpl.
  rewrite !insert_insert_eq.
  unfold MathSet_ior, MathSet_or, set_edges, set_initial, set_nodes,
    set_actions, set_atomic_propositions, empty_graph. simpl.
  rewrite !(left_id_L ∅ (∪)).
  by destruct (mutants _ || mutants _).
Qed.

(** X13. Both products of two closed systems build a new system and leave
    their operands alone: the product is a new instance over new
    containers, its propositions are the union of the propositions of the
    operands, it is mutable exactly when one of the operands is, and the
    containers of the operands, as of every other system of the store,
    are as before. *)
Theorem products_build_new_system
    (ba_prod : FiniteTransitionSystem → BuchiAutomaton → M heap FiniteTransitionSystem)
    (T1 T2 : FiniteTransitionSystem) (h : heap)
    (prod : M heap FiniteTransitionSystem) :
  containers T1 ∈ dom (graphs h) →
  containers T2 ∈ dom (graphs h) →
  prod = sync_prod ba_prod T1 (OpFTS T2) ∨ prod = async_prod T1 (OpFTS T2) →
  ∃ P h',
    prod h = (Ok P, h') ∧
    let g1 := graph_of h (containers T1) in
    let g2 := graph_of h (containers T2) in
    let g := graph_of h' (containers P) in
    atomic_propositions g = atomic_propositions g1 ∪ atomic_propositions g2 ∧
    mutants g = (mutants g1 || mutants g2) ∧
    self_id P = next_id h ∧
    (containers P ∉ dom (graphs h)) ∧
    graph_of h' (containers T1) = g1 ∧
    graph_of h' (containers T2) = g2 ∧
    (∀ r, r ≠ containers P → graphs h' !! r = graphs h !! r).
Proof.
  intros H1 H2 Hprod.
  assert (Hrun : ∃ g,
    prod h = (Ok (FTS (next_id h) "" (fresh (dom (graphs h)))),
              Heap (<[fresh (dom (graphs h)) := g]> (graphs h))
                   (Pos.succ (next_id h))) ∧
    atomic_propositions g
    = atomic_propositions (graph_of h (containers T1))
      ∪ atomic_propositions (graph_of h (containers T2)) ∧
    mutants g = (mutants (graph_of h (containers T1))
                 || mutants (graph_of h (containers T2)))).
  { destruct Hprod as [-> | ->]; eexists.
    - split; [apply _sync_prod_run|split; reflexivity].
    - split; [apply async_prod_run|split; reflexivity]. }
  destruct Hrun as (g & Hrun & Hap & Hmut).
  eexists _, _. split; [exact Hrun|].
  cbn [containers self_id]. rewrite graph_of_heap_insert.
  rewrite !graph_of_alloc_ne by done.
  repeat split; try done.
  - apply is_fresh.
  - intros r Hr. simpl. by rewrite lookup_insert_ne.
Qed.

Lemma products_build_new_system_witness :
  let g1 := Graph {[VStr "p"]} {[VStr "a"]} {[VInt 0 := Some {[VStr "p"]}]}
              {[VInt 0]} [(VInt 0, VInt 0, Some (VStr "a"))] true in
  let g2 := Graph {[VStr "q"]} {[VStr "b"]} {[VInt 1 := None]} ∅ [] false in
  let h := Heap (<[1%positive := g1]> {[2%positive := g2]}) 3 in
  ∃ P h', async_prod (FTS 1 "a" 1) (OpFTS (FTS 2 "b" 2)) h = (Ok P, h') ∧
          atomic_propositions (graph_of h' (containers P))
          = {[VStr "p"]} ∪ {[VStr "q"]} ∧
          mutants (graph_of h' (containers P)) = true ∧
          graph_of h' 1 = g1.
Proof.
  intros g1 g2 h.
  destruct (products_build_new_system (λ _ _, raise NotImplementedError)
              (FTS 1 "a" 1) (FTS 2 "b" 2) h
              (async_prod (FTS 1 "a" 1) (OpFTS (FTS 2 "b" 2))))
    as (P & h' & Hrun & Hap & Hmut & _ & _ & Hg1 & _).
  - apply (bool_decide_unpack _). by vm_compute.
  - apply (bool_decide_unpack _). by vm_compute.
  - by right.
  - exists P, h'. split; [done|]. split; [exact Hap|]. split; [exact Hmut|].
    exact Hg1.
Defined.

Lemma merged_empty gt gs :
  atomic_propositions gs = ∅ → actions gs = ∅ → nodes gs = ∅ →
  initial gs = ∅ → edges gs = [] →
  merged gt gs = gt.
Proof.
  intros Hap Hact Hn Hi He. unfold merged.
  rewrite Hap, Hact, Hn, Hi, He, map_to_list_empty, app_nil_r.
  rewrite !(right_id_L ∅ (∪)). by destruct gt.
Qed.

(** X14. Merging a system without propositions, actions, states and
    transitions (a system just created) into a target returns and leaves
    the containers of the target, and of every system of the store, as
    they were: such a system is neutral for the merge. *)
Theorem add_empty_source (self other : FiniteTransitionSystem) (h : heap) :
  containers self ∈ dom (graphs h) →
  (let gs := graph_of h (containers other) in
   atomic_propositions gs = ∅ ∧ actions gs = ∅ ∧ nodes gs = ∅ ∧
   initial gs = ∅ ∧ edges gs = []) →
  ∃ r h',
    __add__ self (OpFTS other) h = (Ok r, h') ∧
    containers r = containers self ∧
    graphs h' = graphs h.
Proof.
  intros Hself (Hap & Hact & Hn & Hi & He).
  assert (Hwf : well_formed (graph_of h (containers other)) = true).
  { apply well_formed_intro.
    - intros s l. by rewrite Hn, lookup_empty.
    - rewrite Hi. set_solver.
    - intros f t a. rewrite He. by intros ?%elem_of_nil. }
  eexists _, _. split; [exact (add_run self other h Hwf)|].
  split; [done|]. cbn [graphs].
  rewrite merged_empty by done.
  apply elem_of_dom in Hself as [g Hg].
  apply insert_id. unfold graph_of. by rewrite Hg.
Qed.

Lemma add_empty_source_witness :
  let gt := Graph {[VStr "p"]} ∅ {[VStr "s" := Some {[VStr "p"]}]} ∅ [] false in
  let h := Heap (<[1%positive := gt]> {[2%positive := empty_graph false]}) 3 in
  ∃ r h', __add__ (FTS 1 "a" 1) (OpFTS (FTS 2 "b" 2)) h = (Ok r, h') ∧
          graphs h' = graphs h.
Proof.
  intros gt h.
  destruct (add_empty_source (FTS 1 "a" 1) (FTS 2 "b" 2) h)
    as (r & h' & Hrun & _ & Hsame).
  - apply (bool_decide_unpack _). by vm_compute.
  - by vm_compute.
  - by exists r, h'.
Defined.

(** The store a call of [tuple2fts] leaves: the one it started from, when
    the labeling cannot be read, and else that store with new containers
    added. *)
Lemma tuple2fts_store S S0 AP L Act trans name p h res h' :
  tuple2fts S S0 AP L Act trans name p h = (res, h') →
  (h' = h ∧ ∃ e, res = Raise e) ∨
  ((res = Ok (FTS (next_id h) name (fresh (dom (graphs h)))) ∨ ∃ e, res = Raise e) ∧
   ∃ g', h' = Heap (<[fresh (dom (graphs h)) := g']> (graphs h))
                   (Pos.succ (next_id h))).
Proof.
  unfold tuple2fts, bind at 1, lift_result.
  destruct (pair_labels_with_states S L) as [sl|e].
  - unfold bind at 1, new_FiniteTransitionSystem. cbn [containers].
    unfold bind, with_graph. rewrite graph_of_alloc.
    destruct (populate _ _ _ _ _ _ _ _) as [[[]|e] g'].
    + intros [= <- <-]. right. split; [by left|].
      exists g'. unfold store_graph; simpl. by rewrite insert_insert_eq.
    + intros [= <- <-]. right. split; [right; by exists e|].
      exists g'. unfold store_graph; simpl. by rewrite insert_insert_eq.
  - intros [= <- <-]. left. split; [done|by exists e].
Qed.

(** X15. The builders never touch a system that exists: whether
    [tuple2fts], [line_labeled_with] or [cycle_labeled_with] returns or
    raises, the containers of every system of the store are as before;
    and the system a builder returns is a new instance over containers
    that were not in the store. *)
Theorem builders_leave_store_alone (h : heap) :
  (∀ S S0 AP L Act trans name p res h',
     tuple2fts S S0 AP L Act trans name p h = (res, h') →
     (∀ r, r ∈ dom (graphs h) → graphs h' !! r = graphs h !! r) ∧
     (∀ ts, res = Ok ts →
            (containers ts ∉ dom (graphs h)) ∧ self_id ts = next_id h)) ∧
  (∀ L m res h',
     line_labeled_with L m h = (res, h') →
     (∀ r, r ∈ dom (graphs h) → graphs h' !! r = graphs h !! r) ∧
     (∀ ts, res = Ok ts →
            (containers ts ∉ dom (graphs h)) ∧ self_id ts = next_id h)) ∧
  (∀ L res h',
     cycle_labeled_with L h = (res, h') →
     (∀ r, r ∈ dom (graphs h) → graphs h' !! r = graphs h !! r) ∧
     (∀ ts, res = Ok ts →
            (containers ts ∉ dom (graphs h)) ∧ self_id ts = next_id h)).
Proof.
  assert (Hfresh : ∀ r g', r ∈ dom (graphs h) →
            (<[fresh (dom (graphs h)) := g']> (graphs h)) !! r = graphs h !! r).
  { intros r g' Hr. apply lookup_insert_ne. intros <-. by apply is_fresh in Hr. }
  assert (Htup : ∀ S S0 AP L Act trans name p res h',
     tuple2fts S S0 AP L Act trans name p h = (res, h') →
     (∀ r, r ∈ dom (graphs h) → graphs h' !! r = graphs h !! r) ∧
     (∀ ts, res = Ok ts →
            (containers ts ∉ dom (graphs h)) ∧ self_id ts = next_id h)).
  { intros S S0 AP L Act trans name p res h' Hrun.
    apply tuple2fts_store in Hrun as [[-> [e ->]]|[Hres [g' ->]]].
    - split; [done|]. intros ts [=].
    - split; [intros r Hr; by apply Hfresh|].
      intros ts ->. destruct Hres as [[= ->]|[e [=]]].
      split; [apply is_fresh|done]. }
  assert (Hline : ∀ L m res h',
     line_labeled_with L m h = (res, h') →
     (∀ r, r ∈ dom (graphs h) → graphs h' !! r = graphs h !! r) ∧
     (∀ ts, res = Ok ts →
            (containers ts ∉ dom (graphs h)) ∧ self_id ts = next_id h)).
  { intros L m res h'. unfold line_labeled_with, bind at 1, lift_result.
    destruct (negation_closure L) as [AP|e].
    - unfold bind.
      destruct (tuple2fts _ _ _ _ _ _ _ _ h) as [[ts|e] h1] eqn:Hrun;
        intros [= <- <-]; by apply Htup in Hrun.
    - intros [= <- <-]. split; [done|]. intros ts [=]. }
  split; [exact Htup|]. split; [exact Hline|].
  intros L res h'. unfold cycle_labeled_with, bind at 1.
  destruct (line_labeled_with L 0 h) as [[ts|e] h1] eqn:Hrun.
  - apply Hline in Hrun as [Hframe Hnew].
    destruct (Hnew ts eq_refl) as [Hts Hid].
    unfold bind, with_graph.
    destruct (transitions_add _ _ _) as [[[]|e] g'].
    + intros [= <- <-]. split; [|by intros ? [= <-]].
      intros r Hr. simpl. rewrite lookup_insert_ne; [by apply Hframe|].
      by intros <-.
    + intros [= <- <-]. split; [|by intros ? [=]].
      intros r Hr. simpl. rewrite lookup_insert_ne; [by apply Hframe|].
      by intros <-.
  - intros [= <- <-]. by apply Hline in Hrun.
Qed.

(** ** Bare labels *)

Lemma prepend_with_fmap S p : prepend_with S p = (λ s, prepend1 s p) <$> S.
Proof.
  destruct p as [p|]; simpl; [done|]. by rewrite list_fmap_id.
Qed.

Lemma fst_zip_take {A B} (l : list A) (k : list B) :
  (zip l k).*1 = take (length k) l.
Proof.
  rewrite <- (zip_with_take_l pair l k). apply fst_zip.
  rewrite length_take. lia.
Qed.

Lemma zip_labeling_keys {B} S (ls : list B) p :
  (λ sl : pyval * B, prepend1 sl.1 p) <$> zip S ls
  = take (length ls) (prepend_with S p).
Proof.
  transitivity ((λ s, prepend1 s p) <$> (zip S ls).*1).
  { by rewrite <- list_fmap_compose. }
  by rewrite fst_zip_take, fmap_take, prepend_with_fmap.
Qed.

Lemma label_nodes_zip_lookup p S (ls : list (gset pyval))
    (n : gmap pyval label_dict) (i : nat) s :
  NoDup (prepend_with S p) →
  S !! i = Some s →
  label_nodes p (zip S ls) n !! prepend1 s p
  = match ls !! i with
    | Some l => Some (Some l)
    | None => n !! prepend1 s p
    end.
Proof.
  intros Hnd Hs.
  assert (Hkey : prepend_with S p !! i = Some (prepend1 s p)).
  { by rewrite prepend_with_fmap, list_lookup_fmap, Hs. }
  destruct (ls !! i) as [l|] eqn:Hl.
  - apply label_nodes_lookup_in.
    + rewrite zip_labeling_keys. eapply sublist_NoDup; [done|apply sublist_take].
    + apply list_elem_of_lookup. exists i.
      by rewrite lookup_zip_with, Hs, Hl.
  - apply label_nodes_lookup_notin. rewrite zip_labeling_keys.
    intros (j & Hj & Hlt)%elem_of_take.
    assert (i = j) as -> by (by eapply NoDup_lookup).
    apply lookup_ge_None in Hl. lia.
Qed.

Lemma pair_labels_with_states_sets S (ls : list (gset pyval)) :
  ls ≠ [] → size (default ∅ (head ls)) ≠ 2%nat →
  pair_labels_with_states S (Some (OSet <$> ls))
  = Ok (Some (Ok <$> zip S (OSet <$> ls))).
Proof.
  destruct ls as [|l ls]; [done|]. intros _ Hsize. simpl in Hsize.
  unfold pair_labels_with_states. rewrite fmap_cons. simpl.
  unfold size, set_size in Hsize. simpl in Hsize.
  by destruct (elements l) as [|a [|b [|c els]]].
Qed.

(** X17. A list of bare labels, sets of propositions of [AP] the first of
    which does not have exactly two elements, is zipped with the states:
    when the (prefixed) states are distinct and the other arguments fit
    together, [tuple2fts] returns a system in which the state at position
    [i] of [S] carries the label at position [i] of the list, and has no
    label when the list is shorter. *)
Theorem tuple2fts_bare_labels S S0 AP (ls : list (gset pyval)) Act trans name p h :
  ls ≠ [] →
  size (default ∅ (head ls)) ≠ 2%nat →
  (∀ l, l ∈ ls → l ⊆ list_to_set AP) →
  NoDup (prepend_with S p) →
  (∀ s, s ∈ initial_list S0 → s ∈ S) →
  (∀ e, e ∈ trans →
     e.1.1 ∈ S ∧ e.1.2 ∈ S ∧
     match Act with
     | Some acts => ∃ a, e.2 = Some a ∧ a ∈ acts
     | None => e.2 = None
     end) →
  ∃ ts h',
    tuple2fts S S0 AP (Some (OSet <$> ls)) Act trans name p h = (Ok ts, h') ∧
    ∀ (i : nat) s, S !! i = Some s →
      nodes (graph_of h' (containers ts)) !! prepend1 s p = Some (ls !! i).
Proof.
  intros Hls Hsize Hsub Hnd Hini Htrans.
  assert (Hsl := pair_labels_with_states_sets S ls Hls Hsize).
  assert (Hpop : populate (prepend_with S p) (prepend_with (initial_list S0) p)
                   AP (Some (Ok <$> zip S (OSet <$> ls))) Act trans p
                   (empty_graph false)
                 = (Ok tt,
                    Graph (list_to_set AP) (list_to_set (default [] Act))
                      (label_nodes p (zip S ls) (add_states (prepend_with S p) ∅))
                      (list_to_set (prepend_with (initial_list S0) p))
                      (prefix_edge p <$> trans) false)).
  { apply (populate_run _ _ _ _ (zip S ls)).
    - intros s Hs. rewrite prepend_with_fmap in *.
      apply list_elem_of_fmap in Hs as (s0 & -> & Hs0).
      apply list_elem_of_fmap. exists s0. auto.
    - clear. revert S. induction ls as [|l ls IH]; intros [|s S];
        simpl; try constructor; [|apply IH].
      by exists (OSet l).
    - intros s l [Hs Hl]%elem_of_zip.
      split; [by apply prepend1_elem_of|auto].
    - intros e He. destruct (Htrans e He) as (Hf & Ht & Ha).
      split; [by apply prepend1_elem_of|]. split; [by apply prepend1_elem_of|done]. }
  eexists _, _. split; [exact (tuple2fts_run _ _ _ _ _ _ _ _ h _ _ Hsl Hpop)|].
  intros i s Hs. cbn [containers]. rewrite graph_of_heap_insert. cbn [nodes].
  rewrite (label_nodes_zip_lookup p S ls _ i s Hnd Hs).
  destruct (ls !! i); [done|].
  rewrite add_states_lookup, lookup_empty.
  rewrite bool_decide_eq_true_2; [done|].
  apply prepend1_elem_of. by eapply list_elem_of_lookup_2.
Qed.

Lemma tuple2fts_bare_labels_witness :
  ∃ ts h',
    tuple2fts [VInt 0; VInt 1; VInt 2] (S0_iter [VInt 0]) [VStr "p"]
      (Some (OSet <$> [{[VStr "p"]}; ∅])) None [(VInt 0, VInt 1, None)]
      "fts" (Some "x") empty_heap = (Ok ts, h') ∧
    nodes (graph_of h' (containers ts)) !! VStr "x0" = Some (Some {[VStr "p"]}) ∧
    nodes (graph_of h' (containers ts)) !! VStr "x2" = Some None.
Proof.
  destruct (tuple2fts_bare_labels [VInt 0; VInt 1; VInt 2] (S0_iter [VInt 0])
              [VStr "p"] [{[VStr "p"]}; ∅] None [(VInt 0, VInt 1, None)]
              "fts" (Some "x") empty_heap)
    as (ts & h' & Hrun & Hlab).
  - done.
  - by vm_compute.
  - intros l Hl.
    apply (bool_decide_unpack _) in Hl || idtac.
    rewrite !elem_of_cons, elem_of_nil in Hl. destruct Hl as [->|[->|[]]].
    + set_solver.
    + set_solver.
  - apply (bool_decide_unpack _). by vm_compute.
  - intros s Hs. simpl in Hs. apply list_elem_of_singleton in Hs as ->. by left.
  - intros e He. apply list_elem_of_singleton in He as ->. simpl.
    split; [by left|]. split; [by right; left|done].
  - exists ts, h'. split; [done|]. split.
    + exact (Hlab 0%nat (VInt 0) eq_refl).
    + exact (Hlab 2%nat (VInt 2) eq_refl).
Defined.

(** ** A line merged with a cycle *)



